(** * The S3-backed ancient store of core/rawdb/freezer_remote_s3.go

    A shallow embedding of [freezerRemoteS3]: the in-memory backlog
    ([cache]), the single-group read cache ([retrieved]), the frozen
    counter, and the bucket the AWS client talks to, followed by the
    properties of the operations [AppendAncient], [Ancient], [Sync],
    [TruncateAncients], [repair] and of the constructor. *)

From Stdlib Require Import NArith String Ascii List Lia Bool.
From Stdlib Require Import Strings.Byte.
From stdpp Require Import gmap strings list.

Local Open Scope N_scope.

(** ** Byte strings, errors and outcomes *)

Definition bytes := list byte.

(** The error values the file returns. [errOutOfBounds] and
    [errNotSupported] are the package's sentinels; the others stand for the
    errors handed back by rlp, encoding/json, strconv and the AWS client. *)
Inductive error : Type :=
  | errOutOfBounds
  | errNotSupported
  | errRLP
  | errJSON
  | errSyntax
  | errRange
  | errRemote
  | errBatchUpload
  | errBatchDelete.

(** Ways a call can stop without returning. [SliceBeyondLen] is a slice
    expression [s[:k]] with [k > len(s)]: Go panics when [k > cap(s)] and
    otherwise re-exposes elements of the backing array; capacities are not
    part of this model, so the model stops there in both cases. *)
Inductive abort : Type :=
  | DivideByZero
  | IndexOutOfRange
  | UnknownKind
  | EncodeCrit
  | SliceBeyondLen.

Inductive outcome (A : Type) : Type :=
  | Done (a : A)
  | Abort (why : abort).
Arguments Done {A} a.
Arguments Abort {A} why.

Definition bind {A B} (m : outcome A) (k : A → outcome B) : outcome B :=
  match m with
  | Done a => k a
  | Abort w => Abort w
  end.

Notation "'let*' x ':=' m 'in' k" := (bind m (λ x, k))
  (at level 10, x name, m at level 100, k at level 200).
Notation "'let*' ' p ':=' m 'in' k" := (bind m (λ p, k))
  (at level 10, p pattern, m at level 100, k at level 200).

(** ** Unsigned 64-bit arithmetic *)

Definition u64 : N := 2 ^ 64.
Definition add64 (a b : N) : N := (a + b) mod u64.
Definition sub64 (a b : N) : N := (a + u64 - b mod u64) mod u64.

(** ** Decimal formatting and parsing (fmt %0wd, strconv) *)

Definition digit (d : N) : ascii := ascii_of_N (48 + d).

(** [w] decimal digits of [n], most significant first. *)
Fixpoint digitsW (w : nat) (n : N) : string :=
  match w with
  | O => EmptyString
  | S w' => String (digit ((n / 10 ^ N.of_nat w') mod 10)) (digitsW w' n)
  end.

(** The least width [>= w] in which [n] fits, searching [fuel] widths. *)
Fixpoint widthFrom (fuel w : nat) (n : N) : nat :=
  match fuel with
  | O => w
  | S fuel' => if n <? 10 ^ N.of_nat w then w else widthFrom fuel' (S w) n
  end.

(** [%0wd] of a uint64: at least [w] digits, zero padded. *)
Definition sprintf0d (w : nat) (n : N) : string :=
  digitsW (widthFrom (20 - w) w n) n.

(** [strconv.FormatUint(n, 10)]. *)
Definition FormatUint (n : N) : string := sprintf0d 1 n.

Definition digitValue (c : ascii) : option N :=
  let v := N_of_ascii c in
  if (48 <=? v) && (v <=? 57) then Some (v - 48) else None.

Fixpoint parseDigits (s : string) (acc : N) : option N :=
  match s with
  | EmptyString => Some acc
  | String c s' =>
      match digitValue c with
      | Some d => parseDigits s' (acc * 10 + d)
      | None => None
      end
  end.

(** [strconv.ParseUint(s, 10, 64)]: digits only; the empty string and any
    other character are syntax errors (value 0), a value beyond 64 bits is
    a range error (value 2^64-1). *)
Definition ParseUint (s : string) : N * option error :=
  match s with
  | EmptyString => (0, Some errSyntax)
  | _ =>
      match parseDigits s 0 with
      | None => (0, Some errSyntax)
      | Some v => if v <? u64 then (v, None) else (u64 - 1, Some errRange)
      end
  end.

(** ** Keys *)

Definition awsKeyBlock (number : N) : string :=
  "blocks/" +:+ sprintf0d 9 number +:+ ".json".

Definition indexMarkerKey : string := "index-marker".

(** The digits a string starts with, read as a number. *)
Fixpoint leadingDigits (s : string) (acc : N) : N :=
  match s with
  | EmptyString => acc
  | String c s' =>
      match digitValue c with
      | Some d => leadingDigits s' (acc * 10 + d)
      | None => acc
      end
  end.

Fixpoint dropChars (n : nat) (s : string) : string :=
  match n, s with
  | S n', String _ s' => dropChars n' s'
  | _, _ => s
  end.

(** The group index a block key was printed from. *)
Definition groupOfKey (key : string) : N := leadingDigits (dropChars 7 key) 0.

Definition isBlockKey (k : string) : Prop := ∃ g, k = awsKeyBlock g.

(** Counts that fit the 64-bit counter and the nine-digit keys. *)
Definition withinKeySpace (groupSize n : N) : Prop :=
  n < u64 ∧ n <= 10 ^ 9 * groupSize.

(** ** The record fields and their codecs

    [common.Hash], [types.Header], [types.Body], [types.ReceiptForStorage]
    and [big.Int], with [common.BytesToHash], [Hash.Bytes],
    [rlp.DecodeBytes] and [rlp.EncodeToBytes] on them, are declared outside
    this file; they are taken as an interface. *)
Class FieldCodec : Type := {
  Hash : Type;
  Header : Type;
  Body : Type;
  Receipts : Type;
  Difficulty : Type;
  BytesToHash : bytes → Hash;
  HashBytes : Hash → bytes;
  rlpDecodeHeader : bytes → option Header;
  rlpDecodeBody : bytes → option Body;
  rlpDecodeReceipts : bytes → option Receipts;
  rlpDecodeDifficulty : bytes → option Difficulty;
  rlpEncodeHeader : Header → option bytes;
  rlpEncodeBody : Body → option bytes;
  rlpEncodeReceipts : Receipts → option bytes;
  rlpEncodeDifficulty : Difficulty → option bytes;
}.

Record AncientObjectS3 `{FieldCodec} : Type := {
  oHash : Hash;
  oHeader : Header;
  oBody : Body;
  oReceipts : Receipts;
  oDifficulty : Difficulty;
}.

(** [json.Marshal] and [json.Unmarshal] on [[]AncientObjectS3]. The decoded
    slice is taken to depend on the body alone, and a decoding error is
    reported with the target left as it was. *)
Class GroupCodec `{FieldCodec} : Type := {
  jsonMarshal : list AncientObjectS3 → option bytes;
  jsonUnmarshal : bytes → option (list AncientObjectS3);
}.

(** The table names of the schema ([freezerHashTable], ...), and any other
    string, which [RLPBytesForKind] answers with a panic. *)
Inductive Kind : Type :=
  | freezerHashTable
  | freezerHeaderTable
  | freezerBodiesTable
  | freezerReceiptTable
  | freezerDifficultyTable
  | otherKind (name : string).

(** The five byte strings handed to [AppendAncient]. *)
Record AppendArgs : Type := {
  aHash : bytes;
  aHeader : bytes;
  aBody : bytes;
  aReceipts : bytes;
  aTd : bytes;
}.

(** The argument of [AppendAncient] that belongs to a table. *)
Definition argFor (kind : Kind) (a : AppendArgs) : bytes :=
  match kind with
  | freezerHashTable => aHash a
  | freezerHeaderTable => aHeader a
  | freezerBodiesTable => aBody a
  | freezerReceiptTable => aReceipts a
  | freezerDifficultyTable => aTd a
  | otherKind _ => []
  end.

(** Requests that change the bucket, newest first. *)
Inductive request : Type :=
  | PutObject (key : string) (body : bytes)
  | DeleteObject (key : string).

(** What the remote store does wrong during one call: a download or
    GetObject that fails (other than with NoSuchKey), the uploads of a batch
    that fail (by position), a failing batch delete, a failing PutObject of
    the index marker. *)
Record faults : Type := {
  downloadFails : bool;
  uploadFails : nat → bool;
  deleteFails : bool;
  putMarkerFails : bool;
}.

Definition noFaults : faults :=
  {| downloadFails := false; uploadFails := λ _, false;
     deleteFails := false; putMarkerFails := false |}.

Section Freezer.
Context `{GC : GroupCodec}.

(** [NewAncientObjectS3]. *)
Definition NewAncientObjectS3 (a : AppendArgs) : AncientObjectS3 + error :=
  let hash := BytesToHash (aHash a) in
  match rlpDecodeHeader (aHeader a) with
  | None => inr errRLP
  | Some header =>
  match rlpDecodeBody (aBody a) with
  | None => inr errRLP
  | Some body =>
  match rlpDecodeReceipts (aReceipts a) with
  | None => inr errRLP
  | Some receipts =>
  match rlpDecodeDifficulty (aTd a) with
  | None => inr errRLP
  | Some difficulty =>
      inl {| oHash := hash; oHeader := header; oBody := body;
             oReceipts := receipts; oDifficulty := difficulty |}
  end end end end.

Definition orCrit (b : option bytes) : outcome bytes :=
  match b with
  | Some b => Done b
  | None => Abort EncodeCrit
  end.

(** [RLPBytesForKind]. *)
Definition RLPBytesForKind (kind : Kind) (o : AncientObjectS3) : outcome bytes :=
  match kind with
  | freezerHashTable => Done (HashBytes (oHash o))
  | freezerHeaderTable => orCrit (rlpEncodeHeader (oHeader o))
  | freezerBodiesTable => orCrit (rlpEncodeBody (oBody o))
  | freezerReceiptTable => orCrit (rlpEncodeReceipts (oReceipts o))
  | freezerDifficultyTable => orCrit (rlpEncodeDifficulty (oDifficulty o))
  | otherKind _ => Abort UnknownKind
  end.

(** ** The freezer

    [frozen] is the counter behind the pointer of the same name (the
    pointer is nil only inside the constructor, before it is assigned).
    [bucket] holds the objects of the S3 bucket the client fields reach;
    [requests] records the write requests sent to it. *)
Record freezerRemoteS3 : Type := {
  frozen : N;
  objectGroupSize : N;
  retrieved : gmap N AncientObjectS3;
  cache : list AncientObjectS3;
  bucket : gmap string bytes;
  requests : list request;
}.

Definition withFrozen (f : freezerRemoteS3) (n : N) : freezerRemoteS3 :=
  {| frozen := n; objectGroupSize := objectGroupSize f;
     retrieved := retrieved f; cache := cache f;
     bucket := bucket f; requests := requests f |}.

Definition withRetrieved (f : freezerRemoteS3) (r : gmap N AncientObjectS3)
  : freezerRemoteS3 :=
  {| frozen := frozen f; objectGroupSize := objectGroupSize f;
     retrieved := r; cache := cache f;
     bucket := bucket f; requests := requests f |}.

Definition withCache (f : freezerRemoteS3) (c : list AncientObjectS3)
  : freezerRemoteS3 :=
  {| frozen := frozen f; objectGroupSize := objectGroupSize f;
     retrieved := retrieved f; cache := c;
     bucket := bucket f; requests := requests f |}.

Definition withBucket (f : freezerRemoteS3) (b : gmap string bytes)
  (rs : list request) : freezerRemoteS3 :=
  {| frozen := frozen f; objectGroupSize := objectGroupSize f;
     retrieved := retrieved f; cache := cache f;
     bucket := b; requests := rs |}.

(** [objectKeyForN]. *)
Definition objectKeyForN (f : freezerRemoteS3) (n : N) : outcome string :=
  if objectGroupSize f =? 0 then Abort DivideByZero
  else Done (awsKeyBlock (n / objectGroupSize f)).

(** The three ways a download ends: the body, a NoSuchKey error, any
    other error. *)
Inductive fetched : Type :=
  | Fetched (body : bytes)
  | NoSuchKey
  | FetchFailed.

Definition Download (env : faults) (f : freezerRemoteS3) (key : string) : fetched :=
  if downloadFails env then FetchFailed
  else match bucket f !! key with
       | Some b => Fetched b
       | None => NoSuchKey
       end.

(** The loop of [Ancient] that refills [retrieved]. *)
Fixpoint fillRetrieved (start : N) (i : nat) (target : list AncientObjectS3)
  (m : gmap N AncientObjectS3) : gmap N AncientObjectS3 :=
  match target with
  | [] => m
  | v :: rest =>
      fillRetrieved start (S i) rest (<[add64 start (N.of_nat i) := v]> m)
  end.

(** The return of [Ancient] on a found record. *)
Definition encoded (f : freezerRemoteS3) (r : outcome bytes)
  : outcome (freezerRemoteS3 * (option bytes * option error)) :=
  let* b := r in Done (f, (Some b, None)).

(** [Ancient]. *)
Definition Ancient (kind : Kind) (number : N) (env : faults) (f : freezerRemoteS3)
  : outcome (freezerRemoteS3 * (option bytes * option error)) :=
  if frozen f <=? number then Done (f, (None, None)) else
  let backlogLen := N.of_nat (length (cache f)) in
  let remoteHeight := sub64 (frozen f) backlogLen in
  if remoteHeight <=? number then
    let backlogIndex := sub64 number remoteHeight in
    match cache f !! N.to_nat backlogIndex with
    | None => Abort IndexOutOfRange
    | Some o => encoded f (RLPBytesForKind kind o)
    end
  else
  match retrieved f !! number with
  | Some v => encoded f (RLPBytesForKind kind v)
  | None =>
      let* key := objectKeyForN f number in
      match Download env f key with
      | NoSuchKey => Done (f, (None, Some errOutOfBounds))
      | FetchFailed => Done (f, (None, Some errRemote))
      | Fetched buf =>
          match jsonUnmarshal buf with
          | None => Done (f, (None, Some errJSON))
          | Some target =>
              let start := sub64 number (number mod objectGroupSize f) in
              let f' := withRetrieved f (fillRetrieved start 0 target ∅) in
              let i := number mod objectGroupSize f in
              if sub64 (N.of_nat (length target)) 1 <? i then
                Done (f', (None, Some errOutOfBounds))
              else
                match target !! N.to_nat i with
                | None => Abort IndexOutOfRange
                | Some o => encoded f' (RLPBytesForKind kind o)
                end
          end
      end
  end.

(** [HasAncient]. *)
Definition HasAncient (kind : Kind) (number : N) (env : faults) (f : freezerRemoteS3)
  : outcome (freezerRemoteS3 * (bool * option error)) :=
  let* '(f', (v, err)) := Ancient kind number env f in
  match err with
  | Some e => Done (f', (false, Some e))
  | None => Done (f', (match v with Some _ => true | None => false end, None))
  end.

(** [Ancients], once [frozen] is assigned. *)
Definition Ancients (f : freezerRemoteS3) : N * option error :=
  (frozen f, None).

(** [Ancients] while [frozen] is still nil: the index marker is read. *)
Definition AncientsFromMarker (env : faults) (b : gmap string bytes)
  : N * option error :=
  if downloadFails env then (0, Some errRemote)
  else match b !! indexMarkerKey with
       | None => (0, None)
       | Some contents => ParseUint (string_of_list_byte contents)
       end.

(** [AncientSize]. *)
Definition AncientSize (kind : Kind) (f : freezerRemoteS3) : N * option error :=
  (0, Some errNotSupported).

(** [setIndexMarker]. *)
Definition setIndexMarker (number : N) (env : faults) (f : freezerRemoteS3)
  : freezerRemoteS3 * option error :=
  let body := list_byte_of_string (FormatUint number) in
  let rs := PutObject indexMarkerKey body :: requests f in
  if putMarkerFails env then (withBucket f (bucket f) rs, Some errRemote)
  else (withBucket f (<[indexMarkerKey := body]> (bucket f)) rs, None).

(** [AppendAncient]. The parameter [number] is not read. *)
Definition AppendAncient (number : N) (a : AppendArgs) (f : freezerRemoteS3)
  : outcome (freezerRemoteS3 * option error) :=
  match NewAncientObjectS3 a with
  | inr err => Done (f, Some err)
  | inl o =>
      let f1 := withCache f (cache f ++ [o]) in
      Done (withFrozen f1 (add64 (frozen f) 1), None)
  end.

(** The loop of [Sync] that cuts the backlog into upload objects: [set]
    is the group being filled, [i] the position of the head of [vs]. *)
Fixpoint sealUploads (f : freezerRemoteS3) (cacheStartN : N) (lenCache i : nat)
  (set vs : list AncientObjectS3)
  : outcome (list (string * bytes) * option error) :=
  match vs with
  | [] => Done ([], None)
  | v :: rest =>
      let set' := set ++ [v] in
      if (N.of_nat (length set') =? objectGroupSize f)
         || Nat.eqb i (lenCache - 1)
      then
        match jsonMarshal set' with
        | None => Done ([], Some errJSON)
        | Some b =>
            let* key := objectKeyForN f (add64 cacheStartN (N.of_nat i)) in
            let* '(ups, err) := sealUploads f cacheStartN lenCache (S i) [] rest in
            Done ((key, b) :: ups, err)
        end
      else sealUploads f cacheStartN lenCache (S i) set' rest
  end.

(** [UploadWithIterator]: every object of the batch is sent, in order; the
    ones that fail leave the bucket as it was, and the batch reports an
    error if any failed. *)
Fixpoint UploadWithIterator (env : faults) (i : nat) (ups : list (string * bytes))
  (b : gmap string bytes) (rs : list request)
  : gmap string bytes * list request * bool :=
  match ups with
  | [] => (b, rs, false)
  | (key, body) :: rest =>
      let rs' := PutObject key body :: rs in
      if uploadFails env i then
        let '(b', rs'', _) := UploadWithIterator env (S i) rest b rs' in
        (b', rs'', true)
      else UploadWithIterator env (S i) rest (<[key := body]> b) rs'
  end.

(** [Sync]. *)
Definition Sync (env : faults) (f : freezerRemoteS3)
  : outcome (freezerRemoteS3 * option error) :=
  let lenBacklog := length (cache f) in
  if Nat.eqb lenBacklog 0 then Done (f, None) else
  let lenCache := length (cache f) in
  let cacheStartN := sub64 (frozen f) (N.of_nat lenCache) in
  let* '(uploads, err) := sealUploads f cacheStartN lenCache 0 [] (cache f) in
  match err with
  | Some e => Done (f, Some e)
  | None =>
      let '(b, rs, failed) :=
        UploadWithIterator env 0 uploads (bucket f) (requests f) in
      let f1 := withBucket f b rs in
      if failed then Done (f1, Some errBatchUpload) else
      if objectGroupSize f =? 0 then Abort DivideByZero else
      let rem := N.of_nat (length (cache f)) mod objectGroupSize f in
      let f2 := withCache f1 (drop (length (cache f) - N.to_nat rem) (cache f)) in
      Done (setIndexMarker (frozen f) env f2)
  end.

(** The keys a ListObjects with [Marker] returns: those after the marker in
    byte order, the marker itself left out, whatever their prefix. The batch
    delete of [TruncateAncients] removes all of them. *)
Definition listedAfter (marker : string) (b : gmap string bytes) : list string :=
  filter (λ k, String.ltb marker k = true) (map fst (map_to_list b)).

Definition deleteAfter (marker : string) (b : gmap string bytes)
  : gmap string bytes :=
  filter (λ kv, String.ltb marker (fst kv) = false) b.

(** [TruncateAncients]. A failing batch delete is taken to have removed
    nothing. *)
Definition TruncateAncients (items : N) (env : faults) (f : freezerRemoteS3)
  : outcome (freezerRemoteS3 * option error) :=
  let n := frozen f in
  let backlogLen := N.of_nat (length (cache f)) in
  if sub64 n backlogLen <=? items then
    let index := sub64 items (sub64 n backlogLen) in
    if N.of_nat (length (cache f)) <? index then Abort SliceBeyondLen else
    let f1 := withCache f (take (N.to_nat index) (cache f)) in
    Done (withFrozen f1 items, None)
  else
  let* key := objectKeyForN f (sub64 items 1) in
  match Download env f key with
  | NoSuchKey => Done (f, Some errOutOfBounds)
  | FetchFailed => Done (f, Some errRemote)
  | Fetched buf =>
      match jsonUnmarshal buf with
      | None => Done (f, Some errJSON)
      | Some group =>
          let r := items mod objectGroupSize f in
          if N.of_nat (length group) <? r then Abort SliceBeyondLen else
          let f1 := withCache f (take (N.to_nat r) group) in
          let* marker := objectKeyForN f1 items in
          if deleteFails env then Done (f1, Some errBatchDelete) else
          let f2 := withBucket f1 (deleteAfter marker (bucket f1))
                      (map DeleteObject (listedAfter marker (bucket f1))
                       ++ requests f1) in
          let '(f3, err) := setIndexMarker items env f2 in
          match err with
          | Some e => Done (f3, Some e)
          | None => Done (withFrozen f3 items, None)
          end
      end
  end.

(** [repair]. *)
Definition repair (f : freezerRemoteS3) : freezerRemoteS3 * option error :=
  (f, None).

(** [initCache]. *)
Definition initCache (n : N) (env : faults) (f : freezerRemoteS3)
  : outcome (freezerRemoteS3 * option error) :=
  let* key := objectKeyForN f n in
  match Download env f key with
  | NoSuchKey => Done (f, Some errOutOfBounds)
  | FetchFailed => Done (f, Some errRemote)
  | Fetched buf =>
      match jsonUnmarshal buf with
      | None => Done (f, Some errJSON)
      | Some group => Done (withCache f group, None)
      end
  end.

(** [newFreezerRemoteS3], from the group size read from the environment
    and the bucket found at start; the session and the creation of the
    bucket are taken to succeed. The error of reading the marker is
    dropped, as in the source. *)
Definition newFreezerRemoteS3 (freezerGroups : N) (env : faults)
  (b : gmap string bytes) (rs : list request)
  : outcome (freezerRemoteS3 * option error) :=
  let n := fst (AncientsFromMarker env b) in
  let f := {| frozen := n; objectGroupSize := freezerGroups;
              retrieved := ∅; cache := []; bucket := b; requests := rs |} in
  if 0 <? n then initCache n env f else Done (f, None).

(** The freezer the constructor returns on an empty bucket. *)
Definition emptyFreezer (freezerGroups : N) : freezerRemoteS3 :=
  {| frozen := 0; objectGroupSize := freezerGroups; retrieved := ∅;
     cache := []; bucket := ∅; requests := [] |}.

(** ** Runs of calls *)

Inductive call : Type :=
  | CallAppend (number : N) (a : AppendArgs)
  | CallSync (env : faults)
  | CallTruncate (items : N) (env : faults)
  | CallAncient (kind : Kind) (number : N) (env : faults).

Definition dropValue {A} (r : outcome (freezerRemoteS3 * (A * option error)))
  : outcome (freezerRemoteS3 * option error) :=
  let* '(f, (_, err)) := r in Done (f, err).

Definition doCall (c : call) (f : freezerRemoteS3)
  : outcome (freezerRemoteS3 * option error) :=
  match c with
  | CallAppend number a => AppendAncient number a f
  | CallSync env => Sync env f
  | CallTruncate items env => TruncateAncients items env f
  | CallAncient kind number env => dropValue (Ancient kind number env f)
  end.

(** The state after a run in which every call returned a nil error. *)
Fixpoint runCalls (cs : list call) (f : freezerRemoteS3) : option freezerRemoteS3 :=
  match cs with
  | [] => Some f
  | c :: cs' =>
      match doCall c f with
      | Done (f', None) => runCalls cs' f'
      | _ => None
      end
  end.

(** ** Notions used to state the properties *)

(** The upload objects [Sync] builds from the backlog. *)
Definition syncUploads (f : freezerRemoteS3)
  : outcome (list (string * bytes) * option error) :=
  sealUploads f (sub64 (frozen f) (N.of_nat (length (cache f))))
    (length (cache f)) 0 [] (cache f).

(** The backlog [Sync] keeps. *)
Definition syncRemainder (f : freezerRemoteS3) : list AncientObjectS3 :=
  drop (length (cache f)
        - N.to_nat (N.of_nat (length (cache f)) mod objectGroupSize f))
       (cache f).

(** The bucket and the request log after a batch in which every upload
    went through. *)
Definition putAll (ups : list (string * bytes)) (b : gmap string bytes)
  : gmap string bytes :=
  foldl (λ m kb, <[kb.1 := kb.2]> m) b ups.

Definition putRequests (ups : list (string * bytes)) (rs : list request)
  : list request :=
  foldl (λ rs kb, PutObject kb.1 kb.2 :: rs) rs ups.

(** The key of the group that holds the last frozen record, and the body
    of the index marker for the current count. *)
Definition lastGroupKey (f : freezerRemoteS3) : string :=
  awsKeyBlock ((frozen f + u64 - 1) mod u64 / objectGroupSize f).

Definition markerBody (f : freezerRemoteS3) : bytes :=
  list_byte_of_string (FormatUint (frozen f)).

(** What the group codec is relied on for: a marshalled group decodes to
    itself. *)
Definition JSONRoundTrip : Prop :=
  ∀ l b, jsonMarshal l = Some b → jsonUnmarshal b = Some l.

(** The arguments of a table read round-trip when encoding the record
    decoded from them gives the argument of that table back. *)
Definition RoundTrips (kind : Kind) (a : AppendArgs) : Prop :=
  ∀ o, NewAncientObjectS3 a = inl o →
       RLPBytesForKind kind o = Done (argFor kind a).

(** The records [NewAncientObjectS3] makes of a list of arguments. *)
Definition decodes (alog : list AppendArgs) (objs : list AncientObjectS3) : Prop :=
  Forall2 (λ a o, NewAncientObjectS3 a = inl o) alog objs.

(** An argument of an append that [NewAncientObjectS3] cannot decode: the
    header, the body, the receipts or the total difficulty. *)
Definition decodeFails (a : AppendArgs) : Prop :=
  rlpDecodeHeader (aHeader a) = None
  ∨ rlpDecodeBody (aBody a) = None
  ∨ rlpDecodeReceipts (aReceipts a) = None
  ∨ rlpDecodeDifficulty (aTd a) = None.

(** The records of group [g] in the sequence [objs]. *)
Definition groupOf (objs : list AncientObjectS3) (groupSize g : N)
  : list AncientObjectS3 :=
  take (N.to_nat groupSize) (drop (N.to_nat (g * groupSize)) objs).

(** The number of records below the backlog ([remoteHeight] in
    [Ancient]). *)
Definition flushed (f : freezerRemoteS3) : N :=
  frozen f - N.of_nat (length (cache f)).

(** The freezer [f] holds the record sequence [objs]: the counter is its
    length, the backlog is its tail, the part below the backlog is a whole
    number of groups, and each of these groups is an object of the bucket. *)
Record Inv (f : freezerRemoteS3) (objs : list AncientObjectS3) : Prop := {
  inv_gs : 0 < objectGroupSize f;
  inv_frozen : frozen f = N.of_nat (length objs);
  inv_space : withinKeySpace (objectGroupSize f) (frozen f);
  inv_len : (length (cache f) <= length objs)%nat;
  inv_cache : cache f = drop (length objs - length (cache f)) objs;
  inv_aligned : flushed f mod objectGroupSize f = 0;
  inv_remote : ∀ g,
    (g + 1) * objectGroupSize f <= flushed f →
    ∃ body, bucket f !! awsKeyBlock g = Some body
          ∧ jsonUnmarshal body = Some (groupOf objs (objectGroupSize f) g);
}.

(** Every entry of the read cache is the record of its number. *)
Definition retrievedAgree (f : freezerRemoteS3) (objs : list AncientObjectS3)
  : Prop :=
  ∀ k o, retrieved f !! k = Some o → objs !! N.to_nat k = Some o.

(** States reached from a fresh freezer, with the arguments of the appends
    that make up the current record sequence. An append is a step while the
    count stays within the key space; [Sync] and [Ancient] are steps
    whatever they return and whatever the remote store does; a
    [TruncateAncients] to a target not above the frozen count is a step when
    it returns a nil error, and only when [truncating] is set. Calls that
    return an error and leave the freezer as it was add no state. *)
Inductive reachable (truncating : bool) (groupSize : N)
  : freezerRemoteS3 → list AppendArgs → Prop :=
  | reach_new :
      0 < groupSize →
      reachable truncating groupSize (emptyFreezer groupSize) []
  | reach_append f alog number a f' :
      reachable truncating groupSize f alog →
      withinKeySpace groupSize (frozen f + 1) →
      AppendAncient number a f = Done (f', None) →
      reachable truncating groupSize f' (alog ++ [a])
  | reach_sync f alog env f' r :
      reachable truncating groupSize f alog →
      Sync env f = Done (f', r) →
      reachable truncating groupSize f' alog
  | reach_truncate f alog items env f' :
      truncating = true →
      reachable truncating groupSize f alog →
      items <= frozen f →
      TruncateAncients items env f = Done (f', None) →
      reachable truncating groupSize f' (take (N.to_nat items) alog)
  | reach_ancient f alog kind number env f' r :
      reachable truncating groupSize f alog →
      Ancient kind number env f = Done (f', r) →
      reachable truncating groupSize f' alog.

(** The argument history a call leaves, when the call is a step of
    [reachable]. *)
Definition historyStep (c : call) (f : freezerRemoteS3) (alog : list AppendArgs)
  : option (list AppendArgs) :=
  match c with
  | CallAppend _ a =>
      if (frozen f + 1 <? u64) && (frozen f + 1 <=? 10 ^ 9 * objectGroupSize f)
      then Some (alog ++ [a]) else None
  | CallTruncate items _ =>
      if items <=? frozen f then Some (take (N.to_nat items) alog) else None
  | _ => Some alog
  end.

(** [runCalls] with the history carried along. *)
Fixpoint runHistory (cs : list call) (f : freezerRemoteS3) (alog : list AppendArgs)
  : option (freezerRemoteS3 * list AppendArgs) :=
  match cs with
  | [] => Some (f, alog)
  | c :: cs' =>
      match doCall c f, historyStep c f alog with
      | Done (f', None), Some alog' => runHistory cs' f' alog'
      | _, _ => None
      end
  end.

End Freezer.

(** ** A small instance of the codec interfaces

    Every field is one byte: the hash keeps the last byte of its argument
    (the rule of [common.BytesToHash] for a one-byte hash), the other fields
    decode from exactly one byte, and a group is the concatenation of its
    five-byte records. It serves to run the model on concrete inputs. *)
Module SmallCodec.

#[local] Instance fields : FieldCodec := {|
  Hash := byte; Header := byte; Body := byte; Receipts := byte;
  Difficulty := byte;
  BytesToHash := λ b, List.last b x00;
  HashBytes := λ h, [h];
  rlpDecodeHeader := λ b, match b with [x] => Some x | _ => None end;
  rlpDecodeBody := λ b, match b with [x] => Some x | _ => None end;
  rlpDecodeReceipts := λ b, match b with [x] => Some x | _ => None end;
  rlpDecodeDifficulty := λ b, match b with [x] => Some x | _ => None end;
  rlpEncodeHeader := λ x, Some [x];
  rlpEncodeBody := λ x, Some [x];
  rlpEncodeReceipts := λ x, Some [x];
  rlpEncodeDifficulty := λ x, Some [x];
|}.

Definition marshalOne (o : AncientObjectS3) : bytes :=
  [oHash o; oHeader o; oBody o; oReceipts o; oDifficulty o].

Fixpoint marshal (l : list AncientObjectS3) : bytes :=
  match l with
  | [] => []
  | o :: l' => marshalOne o ++ marshal l'
  end.

Fixpoint unmarshalFuel (fuel : nat) (b : bytes) : option (list AncientObjectS3) :=
  match fuel with
  | O => None
  | S fuel' =>
      match b with
      | [] => Some []
      | h :: hd :: bd :: r :: d :: rest =>
          match unmarshalFuel fuel' rest with
          | Some l =>
              Some ({| oHash := h; oHeader := hd; oBody := bd;
                       oReceipts := r; oDifficulty := d |} :: l)
          | None => None
          end
      | _ => None
      end
  end.

#[local] Instance groups : GroupCodec := {|
  jsonMarshal := λ l, Some (marshal l);
  jsonUnmarshal := λ b, unmarshalFuel (S (length b)) b;
|}.

(** The record whose five fields all hold the byte [x]. *)
Definition args (x : byte) : AppendArgs :=
  {| aHash := [x]; aHeader := [x]; aBody := [x]; aReceipts := [x]; aTd := [x] |}.

Definition rec (x : byte) : AncientObjectS3 :=
  {| oHash := x; oHeader := x; oBody := x; oReceipts := x; oDifficulty := x |}.

End SmallCodec.

(** ** Sample states over the small codec *)
Module Samples.
Import SmallCodec.
#[local] Existing Instance fields.
#[local] Existing Instance groups.

(** Three records appended to a fresh freezer with groups of four. *)
Definition threeBuffered : freezerRemoteS3 :=
  {| frozen := 3; objectGroupSize := 4; retrieved := ∅;
     cache := [rec x01; rec x02; rec x03]; bucket := ∅; requests := [] |}.

(** A bucket whose marker says one record, and whose first group object
    decodes to the empty array. *)
Definition emptyGroupBucket : gmap string bytes :=
  <[indexMarkerKey := list_byte_of_string "1"]> (<[awsKeyBlock 0 := []]> ∅).

Definition emptyGroupFreezer : freezerRemoteS3 :=
  {| frozen := 1; objectGroupSize := 32; retrieved := ∅;
     cache := []; bucket := emptyGroupBucket; requests := [] |}.

(** Four appends in sequence followed by a [Sync], with groups of two. *)
Definition fourThenSync : list call :=
  [CallAppend 0 (args x01); CallAppend 1 (args x02);
   CallAppend 2 (args x03); CallAppend 3 (args x04); CallSync noFaults].

(** Two records in the backlog of a freezer with groups of two. *)
Definition twoBuffered : freezerRemoteS3 :=
  {| frozen := 2; objectGroupSize := 2; retrieved := ∅;
     cache := [rec x01; rec x02]; bucket := ∅; requests := [] |}.

(** A remote store whose PutObject of the index marker fails. *)
Definition markerFault : faults :=
  {| downloadFails := false; uploadFails := λ _, false;
     deleteFails := false; putMarkerFails := true |}.

Definition fourArgs : list AppendArgs :=
  [args x01; args x02; args x03; args x04].

(** Three appends in sequence followed by a [Sync], with groups of two. *)
Definition threeThenSync : list call :=
  [CallAppend 0 (args x01); CallAppend 1 (args x02);
   CallAppend 2 (args x03); CallSync noFaults].

(** Two records flushed and read back, a truncation to one record, a new
    record appended at number 1 and flushed; groups of two. *)
Definition rewriteAfterRead : list call :=
  [CallAppend 0 (args x01); CallAppend 1 (args x02); CallSync noFaults;
   CallAncient freezerHashTable 0 noFaults;
   CallTruncate 1 noFaults;
   CallAppend 1 (args x09); CallSync noFaults].

(** One record in the backlog of a freezer built with a group size of 0. *)
Definition zeroGroupBuffered : freezerRemoteS3 :=
  {| frozen := 1; objectGroupSize := 0; retrieved := ∅;
     cache := [rec x01]; bucket := ∅; requests := [] |}.

(** The freezer after [fourThenSync]: two groups of two in the bucket. *)
Definition fourFlushed : freezerRemoteS3 :=
  default (emptyFreezer 2) (runCalls fourThenSync (emptyFreezer 2)).

(** Three records in the backlog of a freezer with groups of two. *)
Definition threeAppended : freezerRemoteS3 :=
  {| frozen := 3; objectGroupSize := 2; retrieved := ∅;
     cache := [rec x01; rec x02; rec x03]; bucket := ∅; requests := [] |}.

Definition threeArgs : list AppendArgs := [args x01; args x02; args x03].

End Samples.

(** * Properties *)

(** ** Keys *)

Section Keys.

Lemma append_cons c s t : String c s +:+ t = String c (s +:+ t).
Proof. reflexivity. Qed.

Lemma N_of_digit d : d < 10 → N_of_ascii (digit d) = 48 + d.
Proof. intros Hd. unfold digit. apply N_ascii_embedding. lia. Qed.

Lemma digitValue_digit d : d < 10 → digitValue (digit d) = Some d.
Proof.
  intros Hd. unfold digitValue. rewrite (N_of_digit d Hd).
  replace (48 <=? 48 + d) with true by (symmetry; apply N.leb_le; lia).
  replace (48 + d <=? 57) with true by (symmetry; apply N.leb_le; lia).
  simpl. f_equal. lia.
Qed.

Lemma pow10_pos w : 0 < 10 ^ N.of_nat w.
Proof. apply N.neq_0_lt_0, N.pow_nonzero. discriminate. Qed.

Lemma pow10_succ w : 10 ^ N.of_nat (S w) = 10 ^ N.of_nat w * 10.
Proof. rewrite Nat2N.inj_succ, N.pow_succ_r'. lia. Qed.

Lemma mod_pow10_succ n w :
  n mod 10 ^ N.of_nat (S w)
  = (n / 10 ^ N.of_nat w) mod 10 * 10 ^ N.of_nat w + n mod 10 ^ N.of_nat w.
Proof. rewrite pow10_succ, N.Div0.mod_mul_r. lia. Qed.

Lemma leadingDigits_digitsW w n s acc :
  leadingDigits (digitsW w n +:+ s) acc
  = leadingDigits s (acc * 10 ^ N.of_nat w + n mod 10 ^ N.of_nat w).
Proof.
  revert acc. induction w as [|w IH]; intros acc.
  - simpl. rewrite N.mod_1_r. f_equal. lia.
  - cbn [digitsW]. rewrite append_cons. cbn [leadingDigits].
    rewrite digitValue_digit by (apply N.mod_upper_bound; discriminate).
    rewrite IH, mod_pow10_succ, pow10_succ. f_equal. lia.
Qed.

Lemma widthFrom_fits fuel w n :
  n < 10 ^ N.of_nat (w + fuel) → n < 10 ^ N.of_nat (widthFrom fuel w n).
Proof.
  revert w. induction fuel as [|fuel IH]; intros w Hn; simpl.
  - by rewrite Nat.add_0_r in Hn.
  - destruct (n <? 10 ^ N.of_nat w) eqn:Hlt.
    + by apply N.ltb_lt.
    + apply IH. by replace (S w + fuel)%nat with (w + S fuel)%nat by lia.
Qed.

Lemma u64_lt_pow10 : u64 < 10 ^ N.of_nat 20.
Proof. reflexivity. Qed.

Lemma groupOfKey_awsKeyBlock g : g < u64 → groupOfKey (awsKeyBlock g) = g.
Proof.
  intros Hg. unfold groupOfKey, awsKeyBlock, sprintf0d. 
  change (dropChars 7 ("blocks/" +:+ ?s)) with s.
  rewrite leadingDigits_digitsW.
  change (leadingDigits ".json" ?x) with x.
  rewrite N.mul_0_l, N.add_0_l.
  apply N.mod_small, widthFrom_fits.
  change (9 + (20 - 9))%nat with 20%nat.
  pose proof u64_lt_pow10. lia.
Qed.

Lemma awsKeyBlock_inj g g' :
  g < u64 → g' < u64 → awsKeyBlock g = awsKeyBlock g' → g = g'.
Proof.
  intros Hg Hg' Heq.
  rewrite <- (groupOfKey_awsKeyBlock g Hg), <- (groupOfKey_awsKeyBlock g' Hg').
  by rewrite Heq.
Qed.

Lemma awsKeyBlock_not_marker g : awsKeyBlock g ≠ indexMarkerKey.
Proof. unfold awsKeyBlock, indexMarkerKey. discriminate. Qed.

Lemma string_compare_refl s : String.compare s s = Eq.
Proof.
  induction s as [|c s IH]; simpl; [done|].
  unfold Ascii.compare. by rewrite N.compare_refl.
Qed.

Lemma compare_digitsW w a b s :
  String.compare (digitsW w a +:+ s) (digitsW w b +:+ s)
  = N.compare (a mod 10 ^ N.of_nat w) (b mod 10 ^ N.of_nat w).
Proof.
  induction w as [|w IH].
  - simpl. rewrite !N.mod_1_r. apply string_compare_refl.
  - cbn [digitsW]. rewrite !append_cons. cbn [String.compare].
    unfold Ascii.compare.
    assert (Ha : (a / 10 ^ N.of_nat w) mod 10 < 10)
      by (apply N.mod_upper_bound; discriminate).
    assert (Hb : (b / 10 ^ N.of_nat w) mod 10 < 10)
      by (apply N.mod_upper_bound; discriminate).
    rewrite !N_of_digit by done.
    rewrite !mod_pow10_succ.
    pose proof (pow10_pos w) as Hp.
    assert (Hra : a mod 10 ^ N.of_nat w < 10 ^ N.of_nat w)
      by (apply N.mod_upper_bound; lia).
    assert (Hrb : b mod 10 ^ N.of_nat w < 10 ^ N.of_nat w)
      by (apply N.mod_upper_bound; lia).
    set (da := (a / 10 ^ N.of_nat w) mod 10) in *.
    set (db := (b / 10 ^ N.of_nat w) mod 10) in *.
    set (p := 10 ^ N.of_nat w) in *.
    set (ra := a mod p) in *. set (rb := b mod p) in *.
    destruct (N.compare_spec (48 + da) (48 + db)) as [Heq|Hlt|Hgt].
    + assert (da = db) as -> by lia. rewrite IH.
      destruct (N.compare_spec ra rb);
        symmetry;
        [apply N.compare_eq_iff|apply N.compare_lt_iff|apply N.compare_gt_iff];
        lia.
    + symmetry. apply N.compare_lt_iff.
      assert ((da + 1) * p <= db * p) by (apply N.mul_le_mono_r; lia). lia.
    + symmetry. apply N.compare_gt_iff.
      assert ((db + 1) * p <= da * p) by (apply N.mul_le_mono_r; lia). lia.
Qed.

Lemma awsKeyBlock_compare g g' :
  g < 10 ^ 9 → g' < 10 ^ 9 →
  String.compare (awsKeyBlock g) (awsKeyBlock g') = N.compare g g'.
Proof.
  intros Hg Hg'. unfold awsKeyBlock, sprintf0d.
  assert (Hw : ∀ n, n < 10 ^ 9 → widthFrom (20 - 9) 9 n = 9%nat).
  { intros n Hn. simpl. apply N.ltb_lt in Hn. 
    change (10 ^ N.of_nat 9) with (10 ^ 9). by rewrite Hn. }
  rewrite !Hw by done.
  change (String.compare ("blocks/" +:+ ?s) ("blocks/" +:+ ?t))
    with (String.compare s t).
  rewrite compare_digitsW. 
  change (10 ^ N.of_nat 9) with (10 ^ 9).
  by rewrite !N.mod_small.
Qed.

Lemma marker_after_blocks g : String.ltb (awsKeyBlock g) indexMarkerKey = true.
Proof. reflexivity. Qed.


End Keys.

(** ** Single calls *)

Section Reads.
Context `{GC : GroupCodec}.

Lemma newFreezerRemoteS3_empty groupSize env rs :
  downloadFails env = false →
  newFreezerRemoteS3 groupSize env ∅ rs
  = Done (withBucket (emptyFreezer groupSize) ∅ rs, None).
Proof.
  intros Henv. unfold newFreezerRemoteS3, AncientsFromMarker.
  rewrite Henv, lookup_empty. reflexivity.
Qed.

Lemma Ancient_beyond_frozen kind number env f :
  frozen f <= number → Ancient kind number env f = Done (f, (None, None)).
Proof.
  intros Hle. unfold Ancient.
  apply N.leb_le in Hle. by rewrite Hle.
Qed.

Lemma HasAncient_beyond_frozen kind number env f :
  frozen f <= number → HasAncient kind number env f = Done (f, (false, None)).
Proof.
  intros Hle. unfold HasAncient.
  by rewrite (Ancient_beyond_frozen kind number env f Hle).
Qed.

Lemma encoded_some f r f' v e :
  encoded f r = Done (f', (v, e)) → is_Some v.
Proof.
  unfold encoded. destruct r as [b|w]; simpl; [|discriminate].
  intros [= _ <- _]. by eexists.
Qed.

(** A nil error with nil bytes comes from the first guard only. *)
Lemma Ancient_nil_nil_inv kind number env f f' :
  Ancient kind number env f = Done (f', (None, None)) → frozen f <= number.
Proof.
  unfold Ancient. destruct (frozen f <=? number) eqn:Hle.
  { intros _. by apply N.leb_le. }
  intros Hres. exfalso. revert Hres.
  unfold objectKeyForN, bind.
  repeat (case_match; simpl);
    try discriminate;
    try (let X := fresh in
         intros X; apply encoded_some in X; destruct X; discriminate).
Qed.

End Reads.

Section Claims_on_single_calls.
Context `{GC : GroupCodec}.

(** C5, as amended. For every table and every number at or beyond the
    frozen count, [Ancient] returns nil bytes together with a nil error and
    leaves the freezer as it was, and [HasAncient] answers false with a nil
    error. No read of a number below the frozen count that returns a nil
    error returns nil bytes, so the nil bytes are what tells the two
    apart. *)
Theorem Ancient_at_or_beyond_frozen kind number env f :
  frozen f <= number →
  Ancient kind number env f = Done (f, (None, None))
  ∧ HasAncient kind number env f = Done (f, (false, None))
  ∧ ∀ kind' number' env' f' v,
      number' < frozen f →
      Ancient kind' number' env' f = Done (f', (v, None)) → v ≠ None.
Proof.
  intros Hle. split; [|split].
  - by apply Ancient_beyond_frozen.
  - by apply HasAncient_beyond_frozen.
  - intros kind' number' env' f' v Hlt Hres ->.
    apply Ancient_nil_nil_inv in Hres. lia.
Qed.

Lemma TruncateAncients_frozen items env f f' :
  TruncateAncients items env f = Done (f', None) → frozen f' = items.
Proof.
  unfold TruncateAncients, objectKeyForN, setIndexMarker, bind.
  repeat (case_match; simpl); try discriminate;
    intros [= <-]; reflexivity.
Qed.

(** C6. After a [TruncateAncients] to a target not above the frozen count
    that returns a nil error, [Ancients] returns the target, and for every
    table and every number at or above the target [Ancient] gives its
    not-found answer (nil bytes) and [HasAncient] answers false. *)
Theorem TruncateAncients_then_absent items env f f' :
  items <= frozen f →
  TruncateAncients items env f = Done (f', None) →
  Ancients f' = (items, None)
  ∧ ∀ kind m env',
      items <= m →
      Ancient kind m env' f' = Done (f', (None, None))
      ∧ HasAncient kind m env' f' = Done (f', (false, None)).
Proof.
  intros _ Htr. apply TruncateAncients_frozen in Htr.
  split.
  - unfold Ancients. by rewrite Htr.
  - intros kind m env' Hm. rewrite <- Htr in Hm. split.
    + by apply Ancient_beyond_frozen.
    + by apply HasAncient_beyond_frozen.
Qed.

(** C2. [AppendAncient] accepts every number: whatever the number handed
    to it and whatever the frozen count, a call whose five arguments decode
    returns a nil error, puts the record at the end of the backlog and
    raises the frozen count by one, as the call made with the frozen count
    itself does. *)
Theorem AppendAncient_number_unread number a f o :
  NewAncientObjectS3 a = inl o →
  AppendAncient number a f
  = Done (withFrozen (withCache f (cache f ++ [o])) (add64 (frozen f) 1), None)
  ∧ AppendAncient number a f = AppendAncient (frozen f) a f.
Proof.
  intros Hnew. split; [|reflexivity].
  unfold AppendAncient. by rewrite Hnew.
Qed.

(** C9. [repair] returns a nil error and the freezer it was given. *)
Theorem repair_does_nothing f : repair f = (f, None).
Proof. reflexivity. Qed.

(** The bounds check of the remote path of [Ancient] on an empty group:
    [len(target) - 1] wraps to 2^64-1, nothing is above it, and the index
    expression runs on the empty array. *)
Lemma Ancient_empty_group_aborts kind number env f buf :
  number < frozen f →
  number < sub64 (frozen f) (N.of_nat (length (cache f))) →
  retrieved f !! number = None →
  objectGroupSize f ≠ 0 →
  Download env f (awsKeyBlock (number / objectGroupSize f)) = Fetched buf →
  jsonUnmarshal buf = Some [] →
  Ancient kind number env f = Abort IndexOutOfRange.
Proof.
  intros Hlt Hrem Hret Hgs Hdl Hjs.
  assert (Hm : number mod objectGroupSize f < u64).
  { assert (Hu : sub64 (frozen f) (N.of_nat (length (cache f))) < u64)
      by (apply N.mod_upper_bound; discriminate).
    pose proof (N.Div0.mod_le number (objectGroupSize f)). lia. }
  unfold Ancient, objectKeyForN.
  apply N.leb_gt in Hlt. rewrite Hlt.
  apply N.leb_gt in Hrem. rewrite Hrem. rewrite Hret.
  apply N.eqb_neq in Hgs. rewrite Hgs. simpl.
  rewrite Hdl, Hjs. simpl.
  change (sub64 (N.of_nat 0) 1) with (u64 - 1).
  destruct (u64 - 1 <? number mod objectGroupSize f) eqn:Hcmp.
  - apply N.ltb_lt in Hcmp. lia.
  - reflexivity.
Qed.

(** On a group that is not empty the check does its work: an offset at or
    beyond the length of the decoded array gives [errOutOfBounds]. *)
Lemma Ancient_short_group_out_of_bounds kind number env f buf target :
  number < frozen f →
  number < sub64 (frozen f) (N.of_nat (length (cache f))) →
  retrieved f !! number = None →
  objectGroupSize f ≠ 0 →
  Download env f (awsKeyBlock (number / objectGroupSize f)) = Fetched buf →
  jsonUnmarshal buf = Some target →
  target ≠ [] → N.of_nat (length target) < u64 →
  N.of_nat (length target) <= number mod objectGroupSize f →
  ∃ f', Ancient kind number env f = Done (f', (None, Some errOutOfBounds)).
Proof.
  intros Hlt Hrem Hret Hgs Hdl Hjs Hne Hu Hoff.
  unfold Ancient, objectKeyForN.
  apply N.leb_gt in Hlt. rewrite Hlt.
  apply N.leb_gt in Hrem. rewrite Hrem. rewrite Hret.
  apply N.eqb_neq in Hgs. rewrite Hgs. simpl.
  rewrite Hdl, Hjs. simpl.
  assert (Hlen : 1 <= N.of_nat (length target)) by (destruct target; [done|simpl; lia]).
  assert (Hsub : sub64 (N.of_nat (length target)) 1 = N.of_nat (length target) - 1).
  { unfold sub64. change (1 mod u64) with 1.
    replace (N.of_nat (length target) + u64 - 1)
      with (N.of_nat (length target) - 1 + 1 * u64) by lia.
    rewrite N.Div0.mod_add. apply N.mod_small. lia. }
  rewrite Hsub.
  assert (Hchk : (N.of_nat (length target) - 1 <? number mod objectGroupSize f) = true)
    by (apply N.ltb_lt; lia).
  rewrite Hchk. by eexists.
Qed.

End Claims_on_single_calls.

(** ** Sync *)

Section SyncLoop.
Context `{GC : GroupCodec}.

(** One group of the loop of [Sync]: from an unfinished [set], the loop
    runs to the element that fills the group (or to the last element),
    seals there and starts again with an empty set. *)
Lemma sealUploads_group f s L vs : ∀ i set,
  vs ≠ [] → (i + length vs = L)%nat →
  N.of_nat (length set) < objectGroupSize f →
  let c := take (N.to_nat (objectGroupSize f) - length set) vs in
  sealUploads f s L i set vs =
    match jsonMarshal (set ++ c) with
    | None => Done ([], Some errJSON)
    | Some b =>
        let* key := objectKeyForN f (add64 s (N.of_nat (i + length c - 1))) in
        let* '(ups, err) :=
          sealUploads f s L (i + length c) [] (drop (length c) vs) in
        Done ((key, b) :: ups, err)
    end.
Proof.
  induction vs as [|v rest IH]; intros i set Hne Hlen Hset; [done|].
  cbv zeta in *. simpl in Hlen.
  set (G := N.to_nat (objectGroupSize f)).
  assert (HG : (length set < G)%nat) by lia.
  cbn [sealUploads].
  destruct ((N.of_nat (length (set ++ [v])) =? objectGroupSize f)
            || Nat.eqb i (L - 1)) eqn:Hseal.
  - assert (Hc : take (G - length set) (v :: rest) = [v]).
    { apply orb_true_iff in Hseal as [Hfull|Hlast].
      - apply N.eqb_eq in Hfull. rewrite length_app in Hfull. simpl in Hfull.
        replace (G - length set)%nat with 1%nat by lia. done.
      - apply Nat.eqb_eq in Hlast.
        assert (rest = []) as -> by (apply length_zero_iff_nil; lia).
        destruct (G - length set)%nat eqn:HGk; [lia|]. simpl. by rewrite take_nil. }
    simpl. rewrite Hc. simpl.
    replace (i + 1 - 1)%nat with i by lia.
    replace (i + 1)%nat with (S i) by lia.
    rewrite drop_0. reflexivity.
  - apply orb_false_iff in Hseal as [Hfull Hlast].
    apply N.eqb_neq in Hfull. apply Nat.eqb_neq in Hlast.
    rewrite length_app in Hfull. simpl in Hfull.
    assert (Hrest : rest ≠ []).
    { intros ->. simpl in Hlen. lia. }
    rewrite (IH (S i) (set ++ [v]) Hrest) by (rewrite ?length_app; simpl; lia).
    rewrite length_app. simpl length. fold G.
    replace (G - length set)%nat with (S (G - (length set + 1))) by lia.
    cbn [take]. rewrite <- app_assoc. cbn [app].
    set (c' := take (G - (length set + 1)) rest).
    cbn [length drop].
    replace (S i + length c' - 1)%nat with (i + S (length c') - 1)%nat by lia.
    replace (S i + length c')%nat with (i + S (length c'))%nat by lia.
    reflexivity.
Qed.



Lemma UploadWithIterator_requests env ups : ∀ i b rs,
  (UploadWithIterator env i ups b rs).1.2 = putRequests ups rs.
Proof.
  induction ups as [|[k body] ups IH]; intros i b rs; [done|].
  cbn [UploadWithIterator putRequests foldl]. destruct (uploadFails env i).
  - specialize (IH (S i) b (PutObject k body :: rs)).
    destruct (UploadWithIterator env (S i) ups b (PutObject k body :: rs))
      as [[b' rs'] fl]. exact IH.
  - apply IH.
Qed.

Lemma UploadWithIterator_other env ups k : ∀ i b rs,
  Forall (λ kb, kb.1 ≠ k) ups →
  (UploadWithIterator env i ups b rs).1.1 !! k = b !! k.
Proof.
  induction ups as [|[k' body] ups IH]; intros i b rs Hall; [done|].
  apply Forall_cons in Hall as [Hk Hall]. simpl in Hk.
  cbn [UploadWithIterator]. destruct (uploadFails env i).
  - specialize (IH (S i) b (PutObject k' body :: rs) Hall).
    destruct (UploadWithIterator env (S i) ups b (PutObject k' body :: rs))
      as [[b' rs'] fl]. exact IH.
  - rewrite IH by done. by apply lookup_insert_ne.
Qed.

Lemma UploadWithIterator_all_sent env ups : ∀ i b rs,
  (UploadWithIterator env i ups b rs).2 = false →
  (UploadWithIterator env i ups b rs).1.1 = putAll ups b
  ∧ ∀ j, (j < length ups)%nat → uploadFails env (i + j) = false.
Proof.
  induction ups as [|[k body] ups IH]; intros i b rs Hok.
  { split; [done|]. simpl. lia. }
  cbn [UploadWithIterator] in *. destruct (uploadFails env i) eqn:Hi.
  - destruct (UploadWithIterator env (S i) ups b (PutObject k body :: rs))
      as [[b' rs'] fl]. discriminate.
  - destruct (IH (S i) (<[k := body]> b) (PutObject k body :: rs) Hok)
      as [Hb Hj].
    split; [exact Hb|].
    intros [|j] Hlt; [by rewrite Nat.add_0_r|].
    simpl in Hlt. replace (i + S j)%nat with (S i + j)%nat by lia.
    apply Hj. lia.
Qed.

Lemma UploadWithIterator_some_failed env ups : ∀ i b rs,
  (UploadWithIterator env i ups b rs).2 = true →
  ∃ j, (j < length ups)%nat ∧ uploadFails env (i + j) = true.
Proof.
  induction ups as [|[k body] ups IH]; intros i b rs Hko; [done|].
  cbn [UploadWithIterator] in *. destruct (uploadFails env i) eqn:Hi.
  - exists 0%nat. simpl. split; [lia|]. by rewrite Nat.add_0_r.
  - destruct (IH (S i) _ _ Hko) as (j & Hlt & Hj).
    exists (S j). simpl. split; [lia|].
    by replace (i + S j)%nat with (S i + j)%nat by lia.
Qed.

Lemma UploadWithIterator_noFaults ups : ∀ i b rs,
  UploadWithIterator noFaults i ups b rs
  = (putAll ups b, putRequests ups rs, false).
Proof.
  induction ups as [|[k body] ups IH]; intros i b rs; [done|].
  cbn [UploadWithIterator]. simpl uploadFails. cbv iota. by rewrite IH.
Qed.

Lemma putAll_other ups k : ∀ b,
  Forall (λ kb, kb.1 ≠ k) ups → putAll ups b !! k = b !! k.
Proof.
  induction ups as [|[k' body] ups IH]; intros b Hall; [done|].
  apply Forall_cons in Hall as [Hk Hall]. simpl in Hk.
  change (putAll ((k', body) :: ups) b) with (putAll ups (<[k' := body]> b)).
  rewrite IH by done. by apply lookup_insert_ne.
Qed.

Lemma putAll_app ups ups' b : putAll (ups ++ ups') b = putAll ups' (putAll ups b).
Proof. apply foldl_app. Qed.


Lemma objectKeyForN_block f n key : objectKeyForN f n = Done key → isBlockKey key.
Proof.
  unfold objectKeyForN. destruct (objectGroupSize f =? 0); [discriminate|].
  intros [= <-]. by eexists.
Qed.

Lemma sealUploads_block_keys f s L vs : ∀ i set ups err,
  sealUploads f s L i set vs = Done (ups, err) →
  Forall (λ kb, isBlockKey kb.1) ups.
Proof.
  induction vs as [|v rest IH]; intros i set ups err.
  { simpl. by intros [= <- _]. }
  cbn [sealUploads]. case_match.
  - destruct (jsonMarshal (set ++ [v])) as [b|]; [|by intros [= <- _]].
    destruct (objectKeyForN f (add64 s (N.of_nat i))) as [key|] eqn:Hkey;
      [|discriminate].
    cbn [bind].
    destruct (sealUploads f s L (S i) [] rest) as [[ups' err']|] eqn:Hrec;
      [|discriminate].
    cbn [bind]. intros [= <- _]. constructor.
    + simpl. by eapply objectKeyForN_block.
    + by eapply IH.
  - apply IH.
Qed.

Lemma block_keys_not_marker ups :
  Forall (λ kb : string * bytes, isBlockKey kb.1) ups →
  Forall (λ kb : string * bytes, kb.1 ≠ indexMarkerKey) ups.
Proof.
  intros Hall. eapply Forall_impl; [exact Hall|].
  intros kb [g ->]. apply awsKeyBlock_not_marker.
Qed.



Lemma Sync_cases env f f' r :
  Sync env f = Done (f', r) →
  (cache f = [] ∧ f' = f ∧ r = None)
  ∨ (cache f ≠ [] ∧ ∃ ups,
      (∃ e, syncUploads f = Done (ups, Some e) ∧ f' = f ∧ r = Some e)
      ∨ (syncUploads f = Done (ups, None)
         ∧ (∃ j, (j < length ups)%nat ∧ uploadFails env j = true)
         ∧ f' = withBucket f
                  (UploadWithIterator env 0 ups (bucket f) (requests f)).1.1
                  (putRequests ups (requests f))
         ∧ r = Some errBatchUpload)
      ∨ (syncUploads f = Done (ups, None)
         ∧ (∀ j, (j < length ups)%nat → uploadFails env j = false)
         ∧ objectGroupSize f ≠ 0
         ∧ (f', r) = setIndexMarker (frozen f) env
                       (withCache
                          (withBucket f (putAll ups (bucket f))
                             (putRequests ups (requests f)))
                          (syncRemainder f)))).
Proof.
  unfold Sync. destruct (Nat.eqb (length (cache f)) 0) eqn:Hlen.
  { intros [= <- <-]. left. apply Nat.eqb_eq, length_zero_iff_nil in Hlen. done. }
  intros Hs. right. split.
  { apply Nat.eqb_neq in Hlen. intros Hnil. by rewrite Hnil in Hlen. }
  fold (syncUploads f) in Hs.
  destruct (syncUploads f) as [[ups [e|]]|] eqn:Hups; cbn [bind] in Hs;
    [| |discriminate]; exists ups.
  { injection Hs as <- <-. left. eauto. }
  right.
  pose proof (UploadWithIterator_requests env ups 0 (bucket f) (requests f)) as Hrs.
  destruct (UploadWithIterator env 0 ups (bucket f) (requests f))
    as [[b rs] failed] eqn:Hup.
  simpl in Hrs. subst rs.
  destruct failed.
  - left. injection Hs as <- <-.
    destruct (UploadWithIterator_some_failed env ups 0 (bucket f) (requests f))
      as (j & Hj & Hf); [by rewrite Hup|].
    split; [done|]. split; [by exists j|]. done.
  - right.
    destruct (UploadWithIterator_all_sent env ups 0 (bucket f) (requests f))
      as [Hb Hj]; [by rewrite Hup|].
    rewrite Hup in Hb. simpl in Hb. subst b.
    destruct (objectGroupSize f =? 0) eqn:Hgs; [discriminate|].
    apply N.eqb_neq in Hgs. injection Hs as Hs.
    split; [done|]. split; [exact Hj|]. split; [done|].
    symmetry. exact Hs.
Qed.

Lemma u64_pos : u64 ≠ 0.
Proof. discriminate. Qed.

(** The absolute number of the last backlog entry is [frozen - 1],
    whatever the backlog length. *)
Lemma add64_sub64_pred a n :
  1 <= n → add64 (sub64 a n) (n - 1) = (a + u64 - 1) mod u64.
Proof.
  intros Hn. unfold add64, sub64.
  rewrite N.Div0.add_mod_idemp_l.
  pose proof (N.div_mod n u64 u64_pos) as Hdm.
  pose proof (N.mod_upper_bound n u64 u64_pos) as Hub.
  assert (Heq : a + u64 - n mod u64 + (n - 1) = a + u64 - 1 + n / u64 * u64).
  { revert Hdm Hub. generalize (n / u64) (n mod u64). intros q m Hdm Hub.
    assert (0 < u64) by (pose proof u64_pos; lia). nia. }
  rewrite Heq. apply N.Div0.mod_add.
Qed.

Lemma mod_pred_succ (L G : nat) :
  G ≠ 0%nat → (L mod G ≠ 0)%nat → ((L - 1) mod G + 1 = L mod G)%nat.
Proof.
  intros HG Hr.
  pose proof (Nat.div_mod L G HG) as Hdm.
  pose proof (Nat.mod_upper_bound L G HG) as Hub.
  assert (Hm : ((L - 1) mod G = L mod G - 1)%nat).
  { symmetry. apply (Nat.mod_unique _ _ (L / G)); lia. }
  lia.
Qed.

Lemma sealUploads_nil f s L i set : sealUploads f s L i set [] = Done ([], None).
Proof. reflexivity. Qed.

(** The last upload object of a batch is the group of the last backlog
    entry and holds the entries after the last full group boundary. *)
Lemma sealUploads_last f s L :
  objectGroupSize f ≠ 0 →
  ∀ n vs i ups,
    length vs = n → vs ≠ [] → (i + length vs = L)%nat →
    sealUploads f s L i [] vs = Done (ups, None) →
    ∃ ups0 body,
      ups = ups0 ++ [(awsKeyBlock (add64 s (N.of_nat (L - 1)) / objectGroupSize f),
                      body)]
      ∧ jsonMarshal
          (drop (length vs
                 - ((length vs - 1) mod N.to_nat (objectGroupSize f) + 1)) vs)
        = Some body.
Proof.
  intros Hgs n. induction n as [n IH] using lt_wf_ind.
  intros vs i ups Hn Hne Hlen.
  set (G := N.to_nat (objectGroupSize f)).
  assert (HG : G ≠ 0%nat) by (unfold G; lia).
  rewrite (sealUploads_group f s L vs i [] Hne Hlen) by (simpl; lia).
  cbv zeta. cbn [length app]. rewrite Nat.sub_0_r. fold G.
  destruct (jsonMarshal (take G vs)) as [b|] eqn:Hb; [|discriminate].
  unfold objectKeyForN. apply N.eqb_neq in Hgs as Hgs'. rewrite Hgs'.
  cbn [bind].
  destruct (decide (drop (length (take G vs)) vs = [])) as [Hrest|Hrest].
  - rewrite Hrest, sealUploads_nil. cbn [bind]. intros [= <-].
    assert (Hshort : (length vs <= G)%nat).
    { apply (f_equal length) in Hrest. rewrite length_drop, length_take in Hrest.
      simpl in Hrest. lia. }
    exists [], b. split.
    + simpl. rewrite length_take.
      replace (i + (G `min` length vs) - 1)%nat with (L - 1)%nat by lia. done.
    + assert (length vs ≠ 0%nat) by (by destruct vs).
      rewrite Nat.mod_small by lia.
      replace (length vs - (length vs - 1 + 1))%nat with 0%nat by lia.
      rewrite drop_0. by rewrite take_ge in Hb by lia.
  - assert (Hlong : (G < length vs)%nat).
    { destruct (decide (G < length vs)%nat); [done|]. exfalso. apply Hrest.
      apply drop_ge. rewrite length_take. lia. }
    assert (HlenG : length (take G vs) = G) by (rewrite length_take; lia).
    rewrite HlenG in *.
    destruct (sealUploads f s L (i + G) [] (drop G vs)) as [[ups' err']|] eqn:Hrec;
      [|discriminate].
    cbn [bind]. intros [= <- ->].
    destruct (IH (length (drop G vs))
                 ltac:(rewrite length_drop; lia) (drop G vs) (i + G)%nat ups'
                 eq_refl Hrest ltac:(rewrite length_drop; lia) Hrec)
      as (ups0 & body & -> & Hbody).
    exists ((awsKeyBlock (add64 s (N.of_nat (i + G - 1)) / objectGroupSize f), b)
            :: ups0), body.
    split; [done|].
    rewrite length_drop, drop_drop in Hbody.
    assert (Hmod : ((length vs - 1) mod G = (length vs - G - 1) mod G)%nat).
    { replace (length vs - 1)%nat with (length vs - G - 1 + 1 * G)%nat by lia.
      apply Nat.Div0.mod_add. }
    rewrite Hmod.
    pose proof (Nat.mod_upper_bound (length vs - G - 1) G HG).
    pose proof (Nat.Div0.mod_le (length vs - G - 1) G).
    replace (length vs - ((length vs - G - 1) mod G + 1))%nat
      with (G + (length vs - G - ((length vs - G - 1) mod G + 1)))%nat by lia.
    exact Hbody.
Qed.

Lemma syncUploads_not_marker f ups err :
  syncUploads f = Done (ups, err) →
  Forall (λ kb : string * bytes, kb.1 ≠ indexMarkerKey) ups.
Proof.
  intros Hups. apply block_keys_not_marker.
  by eapply sealUploads_block_keys.
Qed.

(** C4, as amended. [Sync] trims the backlog and writes the index marker
    only after every upload of the batch went through: when an upload fails
    the call returns the batch error, and backlog, frozen count and marker
    object are as before. Whenever [Sync] returns an error, the frozen count
    and the marker object are unchanged; the backlog is unchanged too, unless
    the error is that of the marker write, in which case every upload went
    through and the backlog is already cut down to what [Sync] keeps. *)
Theorem Sync_failure_leaves_marker env f f' r :
  Sync env f = Done (f', r) →
  (∀ ups j,
     syncUploads f = Done (ups, None) →
     (j < length ups)%nat → uploadFails env j = true →
     r = Some errBatchUpload
     ∧ cache f' = cache f ∧ frozen f' = frozen f
     ∧ bucket f' !! indexMarkerKey = bucket f !! indexMarkerKey)
  ∧ (∀ e,
       r = Some e →
       frozen f' = frozen f
       ∧ bucket f' !! indexMarkerKey = bucket f !! indexMarkerKey
       ∧ (cache f' = cache f
          ∨ (e = errRemote ∧ putMarkerFails env = true
             ∧ cache f' = syncRemainder f))).
Proof.
  intros Hs.
  destruct (Sync_cases env f f' r Hs)
    as [(Hnil & -> & ->)
       |(Hne & ups & [(e & Hups & -> & ->)
                     |[(Hups & (j & Hj & Hf) & -> & ->)
                      |(Hups & Hsent & Hgs & Hset)]])].
  - split.
    + intros ups j Hups Hj _. unfold syncUploads in Hups.
      rewrite Hnil in Hups. simpl in Hups. injection Hups as <-. simpl in Hj. lia.
    + intros e [=].
  - split.
    + intros ups' j Hups'. rewrite Hups in Hups'. discriminate.
    + intros e' [= <-]. auto.
  - assert (Hm : (UploadWithIterator env 0 ups (bucket f) (requests f)).1.1
                 !! indexMarkerKey = bucket f !! indexMarkerKey).
    { apply UploadWithIterator_other. by eapply syncUploads_not_marker. }
    split.
    + intros ups' j' Hups' _ _. auto.
    + intros e [= <-]. auto.
  - assert (Hm : putAll ups (bucket f) !! indexMarkerKey
                 = bucket f !! indexMarkerKey).
    { apply putAll_other. by eapply syncUploads_not_marker. }
    unfold setIndexMarker in Hset.
    destruct (putMarkerFails env) eqn:Hput; injection Hset as -> ->.
    + split.
      * intros ups' j Hups' Hj Hf. rewrite Hups in Hups'. injection Hups' as <-.
        rewrite Hsent in Hf by done. discriminate.
      * intros e [= <-]. split; [done|]. split; [exact Hm|].
        right. auto.
    + split.
      * intros ups' j Hups' Hj Hf. rewrite Hups in Hups'. injection Hups' as <-.
        rewrite Hsent in Hf by done. discriminate.
      * intros e [=].
Qed.



Lemma syncRemainder_length f :
  objectGroupSize f ≠ 0 →
  length (syncRemainder f)
  = (length (cache f) mod N.to_nat (objectGroupSize f))%nat.
Proof.
  intros Hgs. unfold syncRemainder. rewrite length_drop.
  rewrite N2Nat.inj_mod, Nat2N.id.
  pose proof (Nat.Div0.mod_le (length (cache f)) (N.to_nat (objectGroupSize f))).
  lia.
Qed.

(** [Sync] on a backlog shorter than a group: one upload, of the whole
    backlog, to the group of the last record; the backlog stays. *)
Lemma Sync_short_backlog f body :
  cache f ≠ [] →
  N.of_nat (length (cache f)) < objectGroupSize f →
  jsonMarshal (cache f) = Some body →
  ∃ f2, Sync noFaults f = Done (f2, None)
    ∧ frozen f2 = frozen f ∧ cache f2 = cache f
    ∧ retrieved f2 = retrieved f ∧ objectGroupSize f2 = objectGroupSize f
    ∧ bucket f2 = <[indexMarkerKey := markerBody f]>
                    (<[lastGroupKey f := body]> (bucket f))
    ∧ requests f2 = PutObject indexMarkerKey (markerBody f)
                    :: PutObject (lastGroupKey f) body :: requests f.
Proof.
  intros Hne Hlt Hbody.
  assert (Hgs : objectGroupSize f ≠ 0) by lia.
  assert (Hlen : length (cache f) ≠ 0%nat) by (by destruct (cache f)).
  unfold Sync. apply Nat.eqb_neq in Hlen as Hlen'. rewrite Hlen'.
  rewrite (sealUploads_group f _ _ (cache f) 0 [] Hne eq_refl) by (simpl; lia).
  cbv zeta. cbn [app length]. rewrite Nat.sub_0_r.
  rewrite take_ge by lia. rewrite Hbody.
  unfold objectKeyForN. apply N.eqb_neq in Hgs as Hgs'. rewrite Hgs'.
  cbn [bind]. rewrite drop_all, sealUploads_nil. cbn [bind].
  rewrite UploadWithIterator_noFaults. cbv beta iota zeta.
  rewrite (N.mod_small _ _ Hlt), Nat2N.id, Nat.sub_diag, drop_0.
  replace (N.of_nat (0 + length (cache f) - 1)) with (N.of_nat (length (cache f)) - 1)
    by lia.
  rewrite add64_sub64_pred by lia.
  eexists. split; [reflexivity|]. simpl. done.
Qed.

(** C3, as amended. After a [Sync] that returned a nil error, a second
    [Sync] with no call in between (the remote store working) returns a nil
    error and leaves counter, backlog, read cache and bucket exactly as the
    first left them. It sends no request when the first left the backlog
    empty; otherwise it sends two, the group of the last record and the index
    marker, both with the contents the bucket already holds. *)
Theorem Sync_twice env f f1 :
  Sync env f = Done (f1, None) →
  ∃ f2, Sync noFaults f1 = Done (f2, None)
    ∧ frozen f2 = frozen f1 ∧ cache f2 = cache f1
    ∧ retrieved f2 = retrieved f1 ∧ objectGroupSize f2 = objectGroupSize f1
    ∧ bucket f2 = bucket f1
    ∧ (cache f1 = [] → requests f2 = requests f1)
    ∧ (cache f1 ≠ [] →
       ∃ body,
         bucket f1 !! lastGroupKey f1 = Some body
         ∧ bucket f1 !! indexMarkerKey = Some (markerBody f1)
         ∧ requests f2 = PutObject indexMarkerKey (markerBody f1)
                         :: PutObject (lastGroupKey f1) body :: requests f1).
Proof.
  intros Hs.
  destruct (decide (cache f1 = [])) as [Hnil|Hne].
  { exists f1. unfold Sync. rewrite Hnil. simpl. done. }
  destruct (Sync_cases env f f1 None Hs)
    as [(Hnil & -> & _)
       |(Hne0 & ups & [(e & _ & _ & [=])
                      |[(_ & _ & _ & [=])
                       |(Hups & Hsent & Hgs & Hset)]])]; [done|].
  unfold setIndexMarker in Hset.
  destruct (putMarkerFails env) eqn:Hput; [discriminate|].
  injection Hset as Hf1.
  assert (Hc1 : cache f1 = syncRemainder f) by (by rewrite Hf1).
  assert (Hfz : frozen f1 = frozen f) by (by rewrite Hf1).
  assert (Hg1 : objectGroupSize f1 = objectGroupSize f) by (by rewrite Hf1).
  assert (Hb1 : bucket f1 = <[indexMarkerKey := markerBody f]>
                              (putAll ups (bucket f))) by (by rewrite Hf1).
  set (G := N.to_nat (objectGroupSize f)).
  assert (HG : G ≠ 0%nat) by (unfold G; lia).
  pose proof (syncRemainder_length f Hgs) as Hrl. fold G in Hrl.
  assert (Hr0 : (length (cache f) mod G ≠ 0)%nat).
  { rewrite <- Hrl, <- Hc1. by destruct (cache f1). }
  pose proof (Nat.mod_upper_bound (length (cache f)) G HG) as Hub.
  (* the last object of the first batch *)
  destruct (sealUploads_last f _ (length (cache f)) Hgs _ (cache f) 0 ups
              eq_refl Hne0 eq_refl Hups) as (ups0 & body & Hupseq & Hbody).
  fold G in Hbody. rewrite (mod_pred_succ _ _ HG Hr0) in Hbody.
  assert (Hrem : syncRemainder f
                 = drop (length (cache f) - length (cache f) mod G) (cache f)).
  { unfold syncRemainder. by rewrite N2Nat.inj_mod, Nat2N.id. }
  rewrite <- Hrem, <- Hc1 in Hbody.
  assert (Hkey : awsKeyBlock
                   (add64 (sub64 (frozen f) (N.of_nat (length (cache f))))
                      (N.of_nat (length (cache f) - 1)) / objectGroupSize f)
                 = lastGroupKey f1).
  { unfold lastGroupKey. rewrite Hfz, Hg1.
    replace (N.of_nat (length (cache f) - 1))
      with (N.of_nat (length (cache f)) - 1) by lia.
    rewrite add64_sub64_pred; [done|]. destruct (cache f); [done|simpl; lia]. }
  rewrite Hkey in Hupseq.
  assert (Hlk : bucket f1 !! lastGroupKey f1 = Some body).
  { rewrite Hb1, lookup_insert_ne by (symmetry; apply awsKeyBlock_not_marker).
    rewrite Hupseq, putAll_app. simpl. apply lookup_insert_eq. }
  assert (Hmk : bucket f1 !! indexMarkerKey = Some (markerBody f1)).
  { rewrite Hb1. unfold markerBody. rewrite Hfz. apply lookup_insert_eq. }
  destruct (Sync_short_backlog f1 body Hne) as (f2 & Hs2 & ? & ? & ? & ? & Hb2 & Hr2).
  { rewrite Hc1, Hrl, Hg1. revert Hub. unfold G.
    generalize (length (cache f) mod N.to_nat (objectGroupSize f))%nat. lia. }
  { exact Hbody. }
  exists f2. split; [exact Hs2|]. repeat (split; [done|]).
  split.
  { rewrite Hb2. rewrite (insert_id _ _ _ Hlk). by rewrite (insert_id _ _ _ Hmk). }
  split; [done|]. intros _. exists body. done.
Qed.


End SyncLoop.

(** ** The invariant *)

Section Invariant.
Context `{GC : GroupCodec}.

(** *** Small facts *)

Lemma sub64_small a b : b <= a → a < u64 → sub64 a b = a - b.
Proof.
  intros Hle Hlt. unfold sub64.
  rewrite (N.mod_small b) by lia.
  replace (a + u64 - b) with (a - b + 1 * u64) by lia.
  rewrite N.Div0.mod_add. apply N.mod_small. lia.
Qed.

Lemma add64_small a b : a + b < u64 → add64 a b = a + b.
Proof. intros Hlt. unfold add64. by apply N.mod_small. Qed.

Lemma Inv_flushed f objs :
  Inv f objs → flushed f = N.of_nat (length objs - length (cache f)).
Proof. intros [? Hfz ? Hlen ? ? ?]. unfold flushed. rewrite Hfz. lia. Qed.

Lemma Inv_remoteHeight f objs :
  Inv f objs → sub64 (frozen f) (N.of_nat (length (cache f))) = flushed f.
Proof.
  intros [? Hfz [Hu ?] Hlen ? ? ?]. unfold flushed.
  apply sub64_small; lia.
Qed.

(** [Inv] reads the counter, the group size, the backlog and the bucket. *)
Lemma Inv_frame f f' objs :
  frozen f' = frozen f → objectGroupSize f' = objectGroupSize f →
  cache f' = cache f → bucket f' = bucket f →
  Inv f objs → Inv f' objs.
Proof.
  intros Hfz Hgs Hc Hb [H1 H2 H3 H4 H5 H6 H7].
  constructor; unfold flushed in *; rewrite ?Hfz, ?Hgs, ?Hc, ?Hb; done.
Qed.

Lemma Inv_new groupSize : 0 < groupSize → Inv (emptyFreezer groupSize) [].
Proof.
  intros Hgs. constructor; simpl; try done.
  - split; [done|lia].
  - unfold flushed. simpl. intros g Hg. lia.
Qed.

Lemma groupOf_app objs o gs g :
  (g + 1) * gs <= N.of_nat (length objs) →
  groupOf (objs ++ [o]) gs g = groupOf objs gs g.
Proof.
  intros Hg. unfold groupOf.
  rewrite drop_app_le by lia. rewrite take_app_le; [done|].
  rewrite length_drop. lia.
Qed.

Lemma groupOf_take objs n gs g :
  (g + 1) * gs <= N.of_nat n →
  groupOf (take n objs) gs g = groupOf objs gs g.
Proof.
  intros Hg. unfold groupOf.
  rewrite skipn_firstn_comm, take_take. f_equal. lia.
Qed.

Lemma groupOf_length objs gs g :
  (g + 1) * gs <= N.of_nat (length objs) →
  length (groupOf objs gs g) = N.to_nat gs.
Proof. intros Hg. unfold groupOf. rewrite length_take, length_drop. lia. Qed.

Lemma groupOf_lookup objs gs g (j : nat) :
  (j < N.to_nat gs)%nat →
  groupOf objs gs g !! j = objs !! (N.to_nat (g * gs) + j)%nat.
Proof.
  intros Hj. unfold groupOf. rewrite lookup_take_lt by done.
  apply lookup_drop.
Qed.

(** *** Arithmetic of groups *)

Lemma aligned_group_below start gs n :
  0 < gs → start mod gs = 0 → n < start → (n / gs + 1) * gs <= start.
Proof.
  intros Hgs Hal Hn.
  pose proof (N.div_mod start gs ltac:(lia)) as Hs. rewrite Hal in Hs.
  pose proof (N.div_mod n gs ltac:(lia)) as Hd.
  pose proof (N.mod_upper_bound n gs ltac:(lia)) as Hub.
  revert Hs Hd Hub. generalize (start / gs) (n / gs) (n mod gs).
  intros q p m Hs Hd Hub.
  destruct (N.lt_ge_cases p q) as [Hpq|Hqp].
  - assert ((p + 1) * gs <= q * gs) by (apply N.mul_le_mono_r; lia). lia.
  - assert (gs * q <= gs * p) by (apply N.mul_le_mono_l; lia). lia.
Qed.

Lemma group_mul_le_div g gs n :
  0 < gs → (g + 1) * gs <= n → g < n / gs.
Proof.
  intros Hgs Hg.
  assert (g + 1 <= n / gs); [|lia].
  apply N.div_le_lower_bound; [lia|]. by rewrite N.mul_comm.
Qed.

Lemma pred_div items gs :
  0 < gs → items mod gs ≠ 0 → (items - 1) / gs = items / gs.
Proof.
  intros Hgs Hr.
  pose proof (N.div_mod items gs ltac:(lia)) as Hd.
  pose proof (N.mod_upper_bound items gs ltac:(lia)) as Hub.
  symmetry. apply (N.div_unique _ _ _ (items mod gs - 1));
    revert Hr Hd Hub; generalize (items / gs) (items mod gs); intros; nia.
Qed.

Lemma Inv_append f objs number a f' :
  Inv f objs →
  withinKeySpace (objectGroupSize f) (frozen f + 1) →
  AppendAncient number a f = Done (f', None) →
  ∃ o, NewAncientObjectS3 a = inl o ∧ Inv f' (objs ++ [o])
     ∧ retrieved f' = retrieved f ∧ objectGroupSize f' = objectGroupSize f.
Proof.
  intros HI [Hu Hk] Happ. unfold AppendAncient in Happ.
  destruct (NewAncientObjectS3 a) as [o|e]; [|discriminate].
  injection Happ as <-. exists o. split; [done|]. split; [|done].
  pose proof (Inv_flushed f objs HI) as Hfl.
  destruct HI as [H1 H2 H3 H4 H5 H6 H7].
  assert (Hfl' : flushed (withFrozen (withCache f (cache f ++ [o]))
                            (add64 (frozen f) 1)) = flushed f).
  { unfold flushed. simpl. rewrite add64_small by done.
    rewrite length_app. simpl. lia. }
  constructor; rewrite ?Hfl'; simpl; rewrite ?length_app; simpl.
  - done.
  - rewrite add64_small by done. lia.
  - rewrite add64_small by done. done.
  - lia.
  - replace (length objs + 1 - (length (cache f) + 1))%nat
      with (length objs - length (cache f))%nat by lia.
    rewrite drop_app_le by lia. by rewrite <- H5.
  - done.
  - intros g Hg. destruct (H7 g Hg) as (body & Hb & Hj).
    exists body. split; [done|]. rewrite groupOf_app; [done|]. lia.
Qed.

Lemma Inv_truncate_backlog f objs items :
  Inv f objs →
  flushed f <= items → items <= frozen f →
  Inv (withFrozen
         (withCache f (take (N.to_nat (items - flushed f)) (cache f))) items)
      (take (N.to_nat items) objs).
Proof.
  intros HI Hlo Hhi.
  pose proof (Inv_flushed f objs HI) as Hfl.
  destruct HI as [H1 H2 H3 H4 H5 H6 H7].
  assert (Hlen : length (take (N.to_nat (items - flushed f)) (cache f))
                 = N.to_nat (items - flushed f)).
  { rewrite length_take. lia. }
  assert (Hfl' : flushed (withFrozen
                    (withCache f (take (N.to_nat (items - flushed f)) (cache f)))
                    items) = flushed f).
  { unfold flushed at 1. simpl. rewrite Hlen. lia. }
  constructor; rewrite ?Hfl'; simpl; rewrite ?Hlen, ?length_take.
  - done.
  - lia.
  - destruct H3. split; lia.
  - lia.
  - rewrite skipn_firstn_comm.
    replace (N.to_nat items `min` length objs
             - N.to_nat (items - flushed f))%nat
      with (length objs - length (cache f))%nat by lia.
    rewrite <- H5. f_equal. lia.
  - done.
  - intros g Hg. destruct (H7 g Hg) as (body & Hb & Hj).
    exists body. split; [done|]. rewrite groupOf_take; [done|]. lia.
Qed.

Lemma Download_fetched env f key buf :
  Download env f key = Fetched buf → bucket f !! key = Some buf.
Proof.
  unfold Download. destruct (downloadFails env); [discriminate|].
  destruct (bucket f !! key); [|discriminate]. by intros [= ->].
Qed.

Lemma deleteAfter_keeps_lower f objs items g body :
  Inv f objs → items < flushed f →
  (g + 1) * objectGroupSize f <= items →
  bucket f !! awsKeyBlock g = Some body →
  deleteAfter (awsKeyBlock (items / objectGroupSize f)) (bucket f)
    !! awsKeyBlock g = Some body.
Proof.
  intros HI Hit Hg Hb.
  pose proof (Inv_flushed f objs HI) as Hfl.
  destruct HI as [H1 H2 [H3 H3'] H4 H5 H6 H7].
  assert (Hlt : g < items / objectGroupSize f) by (by apply group_mul_le_div).
  assert (Hm : items / objectGroupSize f < 10 ^ 9).
  { apply N.Div0.div_lt_upper_bound. rewrite N.mul_comm. lia. }
  unfold deleteAfter. apply map_lookup_filter_Some_2; [done|].
  simpl. unfold String.ltb.
  rewrite awsKeyBlock_compare by lia.
  assert (Hc : (items / objectGroupSize f ?= g) = Gt) by (apply N.compare_gt_iff; lia).
  by rewrite Hc.
Qed.

Lemma truncated_group_backlog objs gs items :
  0 < gs → 1 <= items → items <= N.of_nat (length objs) →
  ((items - 1) / gs + 1) * gs <= N.of_nat (length objs) →
  take (N.to_nat (items mod gs)) (groupOf objs gs ((items - 1) / gs))
  = drop (N.to_nat items - N.to_nat (items mod gs)) (take (N.to_nat items) objs).
Proof.
  intros Hgs Hit Hlen Hgrp.
  destruct (decide (items mod gs = 0)) as [Hr|Hr].
  - rewrite Hr. simpl. rewrite Nat.sub_0_r. symmetry. apply drop_ge.
    rewrite length_take. lia.
  - rewrite (pred_div items gs Hgs Hr) in *.
    pose proof (N.div_mod items gs ltac:(lia)) as Hd.
    pose proof (N.mod_upper_bound items gs ltac:(lia)) as Hub.
    revert Hd Hub Hr Hgrp. generalize (items / gs) (items mod gs).
    intros q m Hd Hub Hr Hgrp.
    unfold groupOf. rewrite take_take, skipn_firstn_comm.
    assert (q * gs = items - m) as -> by lia.
    f_equal; [lia|f_equal; lia].
Qed.

Lemma Inv_truncate f objs items env f' :
  Inv f objs → items <= frozen f →
  TruncateAncients items env f = Done (f', None) →
  Inv f' (take (N.to_nat items) objs)
  ∧ objectGroupSize f' = objectGroupSize f ∧ retrieved f' = retrieved f.
Proof.
  intros HI Hit. unfold TruncateAncients.
  rewrite (Inv_remoteHeight f objs HI).
  pose proof (Inv_flushed f objs HI) as Hfl.
  pose proof HI as [H1 H2 [H3 H3'] H4 H5 H6 H7].
  destruct (flushed f <=? items) eqn:Hcase.
  - apply N.leb_le in Hcase. rewrite sub64_small by lia.
    destruct (N.of_nat (length (cache f)) <? items - flushed f) eqn:Hidx;
      [discriminate|].
    intros [= <-]. split; [|done]. by apply Inv_truncate_backlog.
  - apply N.leb_gt in Hcase.
    unfold objectKeyForN. assert (Hgs : (objectGroupSize f =? 0) = false)
      by (apply N.eqb_neq; lia).
    rewrite Hgs. cbn [bind].
    destruct (Download env f _) as [buf| |] eqn:Hdl; try discriminate.
    apply Download_fetched in Hdl.
    destruct (jsonUnmarshal buf) as [group|] eqn:Hjs; [|discriminate].
    set (r := items mod objectGroupSize f).
    destruct (N.of_nat (length group) <? r) eqn:Hr; [discriminate|].
    apply N.ltb_ge in Hr. simpl objectGroupSize. rewrite Hgs. cbn [bind].
    destruct (deleteFails env); [discriminate|].
    unfold setIndexMarker. destruct (putMarkerFails env); [discriminate|].
    intros [= <-]. split; [|done].
    pose proof (N.mod_upper_bound items (objectGroupSize f) ltac:(lia)) as Hub.
    pose proof (N.Div0.mod_le items (objectGroupSize f)) as Hmle.
    fold r in Hub, Hmle.
    assert (Hcache : take (N.to_nat r) group
                     = drop (N.to_nat items - N.to_nat r)
                         (take (N.to_nat items) objs)).
    { destruct (decide (items = 0)) as [->|Hnz].
      - unfold r. rewrite N.Div0.mod_0_l. done.
      - rewrite sub64_small in Hdl by lia.
        assert (Hgrp : ((items - 1) / objectGroupSize f + 1) * objectGroupSize f
                       <= flushed f)
          by (apply aligned_group_below; [done|done|lia]).
        destruct (H7 _ Hgrp) as (body & Hb & Hj).
        rewrite Hdl in Hb. injection Hb as <-. rewrite Hjs in Hj.
        injection Hj as ->.
        apply truncated_group_backlog; lia. }
    assert (Hlen : length (take (N.to_nat r) group) = N.to_nat r)
      by (rewrite length_take; lia).
    constructor; unfold flushed; simpl; rewrite ?Hlen, ?length_take.
    + done.
    + lia.
    + split; lia.
    + lia.
    + rewrite Hcache. f_equal. lia.
    + replace (items - N.of_nat (N.to_nat r)) with (items - r) by lia.
      pose proof (N.div_mod items (objectGroupSize f) ltac:(lia)) as Hd.
      fold r in Hd.
      replace (items - r) with (items / objectGroupSize f * objectGroupSize f)
        by lia.
      apply N.Div0.mod_mul.
    + intros g Hg.
      assert (Hg' : (g + 1) * objectGroupSize f <= items) by lia.
      destruct (H7 g ltac:(lia)) as (body & Hb & Hj).
      exists body. split.
      * rewrite lookup_insert_ne by (symmetry; apply awsKeyBlock_not_marker).
        by eapply deleteAfter_keeps_lower.
      * rewrite groupOf_take; [done|lia].
Qed.

(** *** The upload objects of an aligned backlog *)

Lemma aligned_div_add P gs d :
  0 < gs → P mod gs = 0 → d < gs → (P + d) / gs = P / gs ∧ P / gs * gs = P.
Proof.
  intros Hgs Hal Hd.
  pose proof (N.div_mod P gs ltac:(lia)) as HP. rewrite Hal in HP.
  split; [|lia].
  symmetry. apply (N.div_unique _ _ _ d); lia.
Qed.

Lemma multiple_above P g gs :
  0 < gs → P mod gs = 0 → P <= g * gs → g * gs ≠ P → P + gs <= g * gs.
Proof.
  intros Hgs Hal Hle Hne.
  pose proof (N.div_mod P gs ltac:(lia)) as HP. rewrite Hal in HP.
  revert HP. generalize (P / gs). intros q HP.
  destruct (N.lt_ge_cases q g) as [Hqg|Hgq].
  - assert ((q + 1) * gs <= g * gs) by (apply N.mul_le_mono_r; lia). lia.
  - assert (g * gs <= q * gs) by (apply N.mul_le_mono_r; lia). lia.
Qed.

Lemma group_lt_u64 g gs n : 0 < gs → g * gs < n → n < u64 → g < u64.
Proof.
  intros Hgs Hg Hn.
  assert (g * 1 <= g * gs) by (apply N.mul_le_mono_l; lia). lia.
Qed.

Lemma sealUploads_groups f start L :
  0 < objectGroupSize f → N.of_nat (start + L) < u64 →
  ∀ n vs i ups,
    length vs = n → (i + length vs = L)%nat →
    N.of_nat (start + i) mod objectGroupSize f = 0 →
    sealUploads f (N.of_nat start) L i [] vs = Done (ups, None) →
    Forall (λ kb, ∃ g, kb.1 = awsKeyBlock g
                     ∧ N.of_nat (start + i) <= g * objectGroupSize f
                     ∧ g * objectGroupSize f < N.of_nat (start + L)) ups
    ∧ ∀ b g,
        N.of_nat (start + i) <= g * objectGroupSize f →
        (g + 1) * objectGroupSize f <= N.of_nat (start + L) →
        ∃ body,
          putAll ups b !! awsKeyBlock g = Some body
          ∧ jsonMarshal
              (take (N.to_nat (objectGroupSize f))
                 (drop (N.to_nat (g * objectGroupSize f) - (start + i)) vs))
            = Some body.
Proof.
  intros Hgs Hnw n. induction n as [n IH] using lt_wf_ind.
  intros vs i ups Hn Hlen Hal.
  set (gs := objectGroupSize f) in *.
  set (G := N.to_nat gs).
  set (P := N.of_nat (start + i)) in *.
  destruct (decide (vs = [])) as [->|Hne].
  { simpl. intros [= <-]. split; [constructor|].
    intros b g Hlo Hhi. simpl in Hlen. exfalso. unfold P in *. nia. }
  rewrite (sealUploads_group f _ L vs i [] Hne Hlen) by (simpl; fold gs; lia).
  cbv zeta. cbn [length app]. rewrite Nat.sub_0_r. fold gs G.
  destruct (jsonMarshal (take G vs)) as [b0|] eqn:Hb0; [|discriminate].
  unfold objectKeyForN. fold gs.
  assert (Hgs0 : (gs =? 0) = false) by (apply N.eqb_neq; lia).
  rewrite Hgs0. cbn [bind].
  assert (Hlc : length (take G vs) = (G `min` length vs)%nat) by apply length_take.
  assert (Hvs : length vs ≠ 0%nat) by (by destruct vs).
  assert (Hkey : add64 (N.of_nat start) (N.of_nat (i + length (take G vs) - 1)) / gs
                 = P / gs ∧ P / gs * gs = P).
  { rewrite add64_small by lia.
    replace (N.of_nat start + N.of_nat (i + length (take G vs) - 1))
      with (P + N.of_nat (length (take G vs) - 1)) by (unfold P; lia).
    apply aligned_div_add; [done|done|]. unfold G in *. lia. }
  destruct Hkey as [-> Hg0]. set (g0 := P / gs) in *.
  destruct (sealUploads f (N.of_nat start) L (i + length (take G vs)) []
              (drop (length (take G vs)) vs)) as [[ups' err']|] eqn:Hrec;
    [|discriminate].
  cbn [bind]. intros [= <- ->].
  destruct (decide (length vs <= G)%nat) as [Hshort|Hlong].
  - rewrite drop_ge, sealUploads_nil in Hrec by lia.
    injection Hrec as <-. split.
    + constructor; [|constructor]. exists g0. simpl.
      split; [done|]. unfold P in *. lia.
    + intros b g Hlo Hhi.
      assert (Hgeq : g * gs = P).
      { unfold P in *. unfold G in *. nia. }
      assert (g = g0) as ->.
      { apply (N.mul_cancel_r _ _ gs); [lia|]. by rewrite Hg0. }
      exists b0. split; [apply lookup_insert_eq|].
      rewrite Hgeq. unfold P. rewrite Nat2N.id, Nat.sub_diag, drop_0. done.
  - assert (HlcG : length (take G vs) = G) by lia. rewrite HlcG in *.
    assert (HG : N.of_nat G = gs) by (unfold G; lia).
    destruct (IH (length (drop G vs)) ltac:(rewrite length_drop; unfold G in *; lia)
                (drop G vs) (i + G)%nat ups' eq_refl
                ltac:(rewrite length_drop; lia)) as [Hkeys Hcont].
    { replace (N.of_nat (start + (i + G))) with (P + 1 * gs) by (unfold P; lia).
      by rewrite N.Div0.mod_add. }
    { exact Hrec. }
    assert (HP' : N.of_nat (start + (i + G)) = P + gs) by (unfold P; lia).
    rewrite HP' in *.
    split.
    + constructor.
      * exists g0. simpl. split; [done|]. unfold P in *. lia.
      * eapply Forall_impl; [exact Hkeys|].
        intros kb (g & Hk & Hlo & Hhi). exists g. split; [done|]. lia.
    + intros b g Hlo Hhi.
      change (putAll ((awsKeyBlock g0, b0) :: ups') b)
        with (putAll ups' (<[awsKeyBlock g0 := b0]> b)).
      destruct (decide (g * gs = P)) as [Hgeq|Hgne].
      * assert (g = g0) as ->.
        { apply (N.mul_cancel_r _ _ gs); [lia|]. by rewrite Hg0. }
        exists b0. split.
        -- rewrite putAll_other; [apply lookup_insert_eq|].
           eapply Forall_impl; [exact Hkeys|].
           intros kb (g & -> & Hlo' & Hhi') Heq.
           apply awsKeyBlock_inj in Heq.
           ++ subst g. lia.
           ++ eapply group_lt_u64; [exact Hgs|exact Hhi'|exact Hnw].
           ++ eapply (group_lt_u64 _ gs (N.of_nat (start + L))); [done| |done].
              unfold P in *. lia.
        -- rewrite Hgeq. unfold P. rewrite Nat2N.id, Nat.sub_diag, drop_0. done.
      * pose proof (multiple_above P g gs Hgs Hal Hlo Hgne) as Habove.
        destruct (Hcont (<[awsKeyBlock g0 := b0]> b) g Habove Hhi)
          as (body & Hb & Hm).
        exists body. split; [done|].
        rewrite drop_drop in Hm.
        replace (G + (N.to_nat (g * gs) - (start + (i + G))))%nat
          with (N.to_nat (g * gs) - (start + i))%nat in Hm
          by (unfold P in *; lia).
        exact Hm.
Qed.

Lemma aligned_below_next P g gs :
  0 < gs → P mod gs = 0 → P < (g + 1) * gs → P <= g * gs.
Proof.
  intros Hgs Hal Hlt.
  pose proof (N.div_mod P gs ltac:(lia)) as HP. rewrite Hal in HP.
  revert HP. generalize (P / gs). intros q HP.
  destruct (N.lt_ge_cases g q) as [Hgq|Hqg].
  - assert ((g + 1) * gs <= q * gs) by (apply N.mul_le_mono_r; lia). lia.
  - assert (q * gs <= g * gs) by (apply N.mul_le_mono_r; lia). lia.
Qed.

(** With [Inv], the upload objects of [Sync] lie at or above the flushed
    count, and the full groups among them hold the backlog. *)
Lemma Inv_syncUploads f objs ups :
  Inv f objs → syncUploads f = Done (ups, None) →
  Forall (λ kb, ∃ g, kb.1 = awsKeyBlock g
                   ∧ flushed f <= g * objectGroupSize f
                   ∧ g * objectGroupSize f < frozen f) ups
  ∧ ∀ b g,
      flushed f <= g * objectGroupSize f →
      (g + 1) * objectGroupSize f <= frozen f →
      ∃ body,
        putAll ups b !! awsKeyBlock g = Some body
        ∧ jsonMarshal (groupOf objs (objectGroupSize f) g) = Some body.
Proof.
  intros HI Hups. unfold syncUploads in Hups.
  rewrite (Inv_remoteHeight f objs HI) in Hups.
  pose proof (Inv_flushed f objs HI) as Hfl.
  destruct HI as [H1 H2 [H3 H3'] H4 H5 H6 H7].
  set (start := (length objs - length (cache f))%nat) in *.
  rewrite Hfl in Hups.
  assert (Hsum : N.of_nat (start + length (cache f)) = frozen f)
    by (unfold start; lia).
  destruct (sealUploads_groups f start (length (cache f)) H1 ltac:(lia)
              _ (cache f) 0%nat ups eq_refl eq_refl) as [Hkeys Hcont].
  { rewrite Nat.add_0_r, <- Hfl. done. }
  { exact Hups. }
  rewrite Nat.add_0_r, Hsum, <- Hfl in *.
  split; [exact Hkeys|].
  intros b g Hlo Hhi. destruct (Hcont b g Hlo Hhi) as (body & Hb & Hm).
  exists body. split; [done|].
  unfold groupOf. rewrite H5, drop_drop in Hm.
  replace (start + (N.to_nat (g * objectGroupSize f) - start))%nat
    with (N.to_nat (g * objectGroupSize f)) in Hm by lia.
  exact Hm.
Qed.

Lemma upload_keys_above f ups g :
  0 < objectGroupSize f → frozen f < u64 →
  Forall (λ kb : string * bytes, ∃ g', kb.1 = awsKeyBlock g'
                   ∧ flushed f <= g' * objectGroupSize f
                   ∧ g' * objectGroupSize f < frozen f) ups →
  (g + 1) * objectGroupSize f <= flushed f →
  Forall (λ kb : string * bytes, kb.1 ≠ awsKeyBlock g) ups.
Proof.
  intros Hgs Hu Hkeys Hg. eapply Forall_impl; [exact Hkeys|].
  intros kb (g' & -> & Hlo & Hhi) Heq.
  assert (Hfl : flushed f <= frozen f) by (unfold flushed; lia).
  apply awsKeyBlock_inj in Heq.
  - subst g'. lia.
  - by eapply group_lt_u64.
  - eapply (group_lt_u64 _ (objectGroupSize f) (frozen f)); [done| |done]. lia.
Qed.

Lemma Inv_sync f objs env f' r :
  JSONRoundTrip →
  Inv f objs → Sync env f = Done (f', r) →
  Inv f' objs
  ∧ objectGroupSize f' = objectGroupSize f ∧ retrieved f' = retrieved f.
Proof.
  intros Hrt HI Hs.
  destruct (Sync_cases env f f' r Hs)
    as [(Hnil & -> & ->)
       |(Hne & ups & [(e & Hups & -> & ->)
                     |[(Hups & _ & -> & ->)
                      |(Hups & Hsent & Hgs & Hset)]])]; try done.
  - split; [|done].
    destruct (Inv_syncUploads f objs ups HI Hups) as [Hkeys _].
    pose proof HI as [H1 H2 [H3 H3'] H4 H5 H6 H7].
    constructor; try done.
    intros g Hg. change (flushed (withBucket f _ _)) with (flushed f) in Hg.
    destruct (H7 g Hg) as (body & Hb & Hj). exists body. split; [|done].
    simpl. rewrite UploadWithIterator_other; [done|].
    by eapply upload_keys_above.
  - destruct (Inv_syncUploads f objs ups HI Hups) as [Hkeys Hcont].
    pose proof (Inv_flushed f objs HI) as Hfl.
    pose proof HI as [H1 H2 [H3 H3'] H4 H5 H6 H7].
    pose proof (syncRemainder_length f Hgs) as Hrl.
    set (G := N.to_nat (objectGroupSize f)) in *.
    assert (HG : G ≠ 0%nat) by (unfold G; lia).
    pose proof (Nat.Div0.mod_le (length (cache f)) G) as Hmle.
    pose proof (Nat.div_mod (length (cache f)) G HG) as Hdm.
    assert (Hbk : ∀ k, bucket f' !! awsKeyBlock k
                       = putAll ups (bucket f) !! awsKeyBlock k).
    { intros k. unfold setIndexMarker in Hset.
      destruct (putMarkerFails env); injection Hset as -> _; simpl; [done|].
      apply lookup_insert_ne. symmetry. apply awsKeyBlock_not_marker. }
    assert (Hfz : frozen f' = frozen f).
    { unfold setIndexMarker in Hset.
      destruct (putMarkerFails env); by injection Hset as -> _. }
    assert (Hgs' : objectGroupSize f' = objectGroupSize f).
    { unfold setIndexMarker in Hset.
      destruct (putMarkerFails env); by injection Hset as -> _. }
    assert (Hc : cache f' = syncRemainder f).
    { unfold setIndexMarker in Hset.
      destruct (putMarkerFails env); by injection Hset as -> _. }
    assert (Hrt' : retrieved f' = retrieved f).
    { unfold setIndexMarker in Hset.
      destruct (putMarkerFails env); by injection Hset as -> _. }
    split; [|done].
    assert (Hfl' : flushed f'
                   = flushed f + N.of_nat (length (cache f) / G) * objectGroupSize f).
    { unfold flushed. rewrite Hfz, Hc, Hrl.
      assert (N.of_nat (length (cache f) / G) * objectGroupSize f
              = N.of_nat (G * (length (cache f) / G))) as ->
        by (unfold G; lia).
      lia. }
    constructor; rewrite ?Hfz, ?Hgs', ?Hc, ?Hrl; try done.
    + lia.
    + unfold syncRemainder. rewrite N2Nat.inj_mod, Nat2N.id. fold G.
      etransitivity; [apply (f_equal (drop _) H5)|].
      rewrite drop_drop. f_equal. lia.
    + rewrite Hfl'. rewrite N.Div0.mod_add. done.
    + intros g Hg. rewrite Hbk.
      destruct (N.le_gt_cases ((g + 1) * objectGroupSize f) (flushed f))
        as [Hold|Hnew].
      * destruct (H7 g Hold) as (body & Hb & Hj). exists body. split; [|done].
        rewrite putAll_other; [done|]. by eapply upload_keys_above.
      * assert (Hlo : flushed f <= g * objectGroupSize f)
          by (by apply aligned_below_next).
        assert (Hhi : (g + 1) * objectGroupSize f <= frozen f).
        { assert (flushed f' <= frozen f'); [unfold flushed; lia|]. lia. }
        destruct (Hcont (bucket f) g Hlo Hhi) as (body & Hb & Hm).
        exists body. split; [done|]. by apply Hrt.
Qed.

(** *** Reads *)

Lemma Ancient_cases kind number env f f' r :
  Ancient kind number env f = Done (f', r) →
  f' = f
  ∨ ∃ buf target,
      number < frozen f
      ∧ number < sub64 (frozen f) (N.of_nat (length (cache f)))
      ∧ objectGroupSize f ≠ 0
      ∧ Download env f (awsKeyBlock (number / objectGroupSize f)) = Fetched buf
      ∧ jsonUnmarshal buf = Some target
      ∧ f' = withRetrieved f
               (fillRetrieved (sub64 number (number mod objectGroupSize f))
                  0 target ∅).
Proof.
  unfold Ancient, encoded, objectKeyForN.
  destruct (frozen f <=? number) eqn:H1; [intros [= <- _]; by left|].
  destruct (sub64 (frozen f) (N.of_nat (length (cache f))) <=? number) eqn:H2.
  { destruct (cache f !! _); [|discriminate].
    destruct (RLPBytesForKind kind a); [|discriminate].
    intros [= <- _]. by left. }
  destruct (retrieved f !! number).
  { destruct (RLPBytesForKind kind a); [|discriminate].
    intros [= <- _]. by left. }
  destruct (objectGroupSize f =? 0) eqn:H3; [discriminate|]. cbn [bind].
  destruct (Download env f _) as [buf| |] eqn:Hdl;
    [|intros [= <- _]; by left|intros [= <- _]; by left].
  destruct (jsonUnmarshal buf) as [target|] eqn:Hjs; [|intros [= <- _]; by left].
  intros Hres. right. exists buf, target.
  apply N.leb_gt in H1, H2. apply N.eqb_neq in H3.
  repeat (split; [done|]).
  revert Hres. case_match; [by intros [= <- _]|].
  destruct (target !! _); [|discriminate].
  destruct (RLPBytesForKind kind a); [|discriminate].
  by intros [= <- _].
Qed.

Lemma Ancient_frame kind number env f f' r :
  Ancient kind number env f = Done (f', r) →
  frozen f' = frozen f ∧ objectGroupSize f' = objectGroupSize f
  ∧ cache f' = cache f ∧ bucket f' = bucket f ∧ requests f' = requests f.
Proof.
  intros Hres. destruct (Ancient_cases _ _ _ _ _ _ Hres)
    as [->|(buf & target & _ & _ & _ & _ & _ & ->)]; done.
Qed.

Lemma fillRetrieved_agree (objs : list AncientObjectS3) s target : ∀ i m,
  (∀ k o, m !! k = Some o → objs !! N.to_nat k = Some o) →
  (∀ j o, target !! j = Some o → objs !! (N.to_nat s + i + j)%nat = Some o) →
  s + N.of_nat (i + length target) <= u64 →
  ∀ k o, fillRetrieved s i target m !! k = Some o → objs !! N.to_nat k = Some o.
Proof.
  induction target as [|v rest IH]; intros i m Hm Ht Hu k o; simpl.
  - apply Hm.
  - simpl in Hu. apply IH.
    + intros k' o'. rewrite lookup_insert. case_decide as Hk.
      * intros [= <-]. subst k'. rewrite add64_small by lia.
        specialize (Ht 0%nat v eq_refl).
        replace (N.to_nat (s + N.of_nat i)) with (N.to_nat s + i + 0)%nat by lia.
        done.
      * apply Hm.
    + intros j o' Hj. specialize (Ht (S j) o' Hj).
      by replace (N.to_nat s + S i + j)%nat with (N.to_nat s + i + S j)%nat by lia.
    + lia.
Qed.

(** Under [Inv], what a download below the flushed count brings back. *)
Lemma Inv_fetch f objs env number buf :
  Inv f objs → number < flushed f →
  Download env f (awsKeyBlock (number / objectGroupSize f)) = Fetched buf →
  jsonUnmarshal buf
  = Some (groupOf objs (objectGroupSize f) (number / objectGroupSize f))
  ∧ (number / objectGroupSize f + 1) * objectGroupSize f <= flushed f.
Proof.
  intros HI Hn Hdl. apply Download_fetched in Hdl.
  pose proof HI as [H1 H2 H3 H4 H5 H6 H7].
  assert (Hg : (number / objectGroupSize f + 1) * objectGroupSize f <= flushed f)
    by (by apply aligned_group_below).
  destruct (H7 _ Hg) as (body & Hb & Hj).
  rewrite Hdl in Hb. injection Hb as <-. done.
Qed.

Lemma Inv_Ancient_retrieved f objs kind number env f' r :
  Inv f objs → retrievedAgree f objs →
  Ancient kind number env f = Done (f', r) →
  retrievedAgree f' objs.
Proof.
  intros HI Hag Hres.
  destruct (Ancient_cases _ _ _ _ _ _ Hres)
    as [->|(buf & target & Hfz & Hrh & Hgs & Hdl & Hjs & ->)]; [done|].
  rewrite (Inv_remoteHeight f objs HI) in Hrh.
  destruct (Inv_fetch f objs env number buf HI Hrh Hdl) as [Hj Hg].
  rewrite Hjs in Hj. injection Hj as ->.
  pose proof (Inv_flushed f objs HI) as Hfl.
  pose proof HI as [H1 H2 [H3 H3'] H4 H5 H6 H7].
  pose proof (N.div_mod number (objectGroupSize f) Hgs) as Hd.
  pose proof (N.Div0.mod_le number (objectGroupSize f)) as Hmle.
  assert (Hs : sub64 number (number mod objectGroupSize f)
               = number / objectGroupSize f * objectGroupSize f).
  { rewrite sub64_small by lia. lia. }
  unfold retrievedAgree. simpl. rewrite Hs.
  apply fillRetrieved_agree.
  - intros k o. by rewrite lookup_empty.
  - intros j o Hj. rewrite Nat.add_0_r.
    rewrite groupOf_lookup in Hj; [done|].
    apply lookup_lt_Some in Hj. rewrite groupOf_length in Hj by lia. done.
  - rewrite groupOf_length by lia. simpl. lia.
Qed.


Lemma Inv_Ancient_read f objs kind number env o :
  Inv f objs →
  objs !! N.to_nat number = Some o →
  downloadFails env = false →
  (∀ v, retrieved f !! number = Some v → v = o) →
  ∃ f', Ancient kind number env f = encoded f' (RLPBytesForKind kind o).
Proof.
  intros HI Ho Henv Hret.
  pose proof (Inv_flushed f objs HI) as Hfl.
  pose proof (Inv_remoteHeight f objs HI) as Hrh.
  pose proof HI as [H1 H2 [H3 H3'] H4 H5 H6 H7].
  apply lookup_lt_Some in Ho as Hlt.
  unfold Ancient.
  assert (Hfz : (frozen f <=? number) = false) by (apply N.leb_gt; lia).
  rewrite Hfz, Hrh.
  destruct (flushed f <=? number) eqn:Hcase.
  - apply N.leb_le in Hcase. rewrite sub64_small by lia.
    rewrite H5, lookup_drop.
    replace (length objs - length (cache f) + N.to_nat (number - flushed f))%nat
      with (N.to_nat number) by lia.
    rewrite Ho. by eexists.
  - apply N.leb_gt in Hcase.
    destruct (retrieved f !! number) as [v|] eqn:Hv.
    { rewrite (Hret v eq_refl). by eexists. }
    unfold objectKeyForN.
    assert (Hgs : (objectGroupSize f =? 0) = false) by (apply N.eqb_neq; lia).
    rewrite Hgs. cbn [bind].
    assert (Hgrp : (number / objectGroupSize f + 1) * objectGroupSize f
                   <= flushed f) by (by apply aligned_group_below).
    destruct (H7 _ Hgrp) as (buf & Hb & Hj).
    unfold Download. rewrite Henv, Hb.
    rewrite Hj.
    assert (Hgl : (number / objectGroupSize f + 1) * objectGroupSize f
                  <= N.of_nat (length objs)).
    { etransitivity; [exact Hgrp|]. rewrite Hfl. lia. }
    rewrite groupOf_length by exact Hgl.
    apply N.eqb_neq in Hgs.
    pose proof (N.mod_upper_bound number (objectGroupSize f) Hgs) as Hub.
    pose proof (N.div_mod number (objectGroupSize f) Hgs) as Hd.
    rewrite N2Nat.id.
    assert (Hgu : objectGroupSize f < u64).
    { apply N.le_lt_trans with (N.of_nat (length objs)); [|lia].
      etransitivity; [|exact Hgl].
      rewrite <- (N.mul_1_l (objectGroupSize f)) at 1.
      apply N.mul_le_mono_r, N.le_add_l. }
    rewrite (sub64_small (objectGroupSize f) 1) by lia.
    assert (Hchk : (objectGroupSize f - 1 <? number mod objectGroupSize f) = false)
      by (apply N.ltb_ge; lia).
    rewrite Hchk. rewrite groupOf_lookup by lia.
    replace (N.to_nat (number / objectGroupSize f * objectGroupSize f)
             + N.to_nat (number mod objectGroupSize f))%nat
      with (N.to_nat number) by lia.
    rewrite Ho. by eexists.
Qed.


End Invariant.

(** ** Reachable states *)

Section Reachable.
Context `{GC : GroupCodec}.

Lemma reachable_Inv truncating gs f alog :
  JSONRoundTrip →
  reachable truncating gs f alog →
  ∃ objs, decodes alog objs ∧ Inv f objs ∧ objectGroupSize f = gs
        ∧ (truncating = false → retrievedAgree f objs).
Proof.
  intros Hrt Hreach.
  induction Hreach
    as [Hgs
       |f alog number a f' _ (objs & Hdec & HI & Hg & Hag) Hks Happ
       |f alog env f' r _ (objs & Hdec & HI & Hg & Hag) Hs
       |f alog items env f' Htr _ (objs & Hdec & HI & Hg & Hag) Hit Htrunc
       |f alog kind number env f' r _ (objs & Hdec & HI & Hg & Hag) Hread].
  - exists []. split; [constructor|]. split; [by apply Inv_new|].
    split; [done|]. intros _ k o. simpl. by rewrite lookup_empty.
  - rewrite <- Hg in Hks.
    destruct (Inv_append f objs number a f' HI Hks Happ)
      as (o & Ho & HI' & Hret & Hg').
    exists (objs ++ [o]). split.
    { apply Forall2_app; [done|]. by constructor. }
    split; [done|]. split; [congruence|].
    intros Ht k v Hk. rewrite Hret in Hk.
    apply lookup_app_l_Some. by apply Hag.
  - destruct (Inv_sync f objs env f' r Hrt HI Hs) as (HI' & Hg' & Hret).
    exists objs. split; [done|]. split; [done|]. split; [congruence|].
    intros Ht k v Hk. rewrite Hret in Hk. by apply Hag.
  - destruct (Inv_truncate f objs items env f' HI Hit Htrunc)
      as (HI' & Hg' & Hret).
    exists (take (N.to_nat items) objs). split; [by apply Forall2_take|].
    split; [done|]. split; [congruence|].
    intros Ht. congruence.
  - destruct (Ancient_frame _ _ _ _ _ _ Hread) as (Hfz & Hg' & Hc & Hb & _).
    exists objs. split; [done|].
    split; [by apply (Inv_frame f f' objs)|]. split; [congruence|].
    intros Ht. eapply Inv_Ancient_retrieved; eauto.
Qed.

(** *** How the counter moves *)

Lemma AppendAncient_frozen number a f f' r :
  AppendAncient number a f = Done (f', r) →
  match r with
  | None => frozen f' = add64 (frozen f) 1
  | Some _ => f' = f
  end.
Proof.
  unfold AppendAncient. destruct (NewAncientObjectS3 a); by intros [= <- <-].
Qed.

Lemma Sync_frozen env f f' r :
  Sync env f = Done (f', r) → frozen f' = frozen f.
Proof.
  intros Hs.
  destruct (Sync_cases env f f' r Hs)
    as [(Hnil & -> & ->)
       |(Hne & ups & [(e & Hups & -> & ->)
                     |[(Hups & _ & -> & ->)
                      |(Hups & Hsent & Hgs & Hset)]])]; try done.
  unfold setIndexMarker in Hset.
  destruct (putMarkerFails env); by injection Hset as -> _.
Qed.

Lemma TruncateAncients_error_frozen items env f f' e :
  TruncateAncients items env f = Done (f', Some e) → frozen f' = frozen f.
Proof.
  unfold TruncateAncients, objectKeyForN, setIndexMarker, bind.
  repeat (case_match; simpl); intros; simplify_eq; reflexivity.
Qed.

(** C7, as amended. In every state reached from a fresh freezer by appends
    within the key space, by [Sync] and [Ancient] calls whatever they return,
    and by [TruncateAncients] calls that return a nil error for a target not
    above the frozen count: the frozen count is the flushed count plus the
    backlog length, and is the number of records appended and not truncated;
    the backlog holds exactly the records numbered from the flushed count up
    to the frozen count; every record below the flushed count sits in its
    group object in the bucket. From such a state an append that returns nil
    raises the frozen count by one, a truncation that returns nil sets it to
    the target, and every other outcome of the four calls leaves it as it
    was. *)
Theorem reachable_frozen_count truncating gs f alog :
  JSONRoundTrip →
  reachable truncating gs f alog →
  (frozen f = flushed f + N.of_nat (length (cache f))
   ∧ frozen f = N.of_nat (length alog)
   ∧ decodes (drop (N.to_nat (flushed f)) alog) (cache f)
   ∧ ∀ n a,
       n < flushed f → alog !! N.to_nat n = Some a →
       ∃ body group o,
         bucket f !! awsKeyBlock (n / gs) = Some body
         ∧ jsonUnmarshal body = Some group
         ∧ group !! N.to_nat (n mod gs) = Some o
         ∧ NewAncientObjectS3 a = inl o)
  ∧ (∀ number a f',
       AppendAncient number a f = Done (f', None) →
       withinKeySpace gs (frozen f + 1) → frozen f' = frozen f + 1)
  ∧ (∀ number a f' e,
       AppendAncient number a f = Done (f', Some e) → frozen f' = frozen f)
  ∧ (∀ env f' r, Sync env f = Done (f', r) → frozen f' = frozen f)
  ∧ (∀ items env f',
       TruncateAncients items env f = Done (f', None) → frozen f' = items)
  ∧ (∀ items env f' e,
       TruncateAncients items env f = Done (f', Some e) → frozen f' = frozen f)
  ∧ (∀ kind number env f' r,
       Ancient kind number env f = Done (f', r) → frozen f' = frozen f).
Proof.
  intros Hrt Hreach.
  destruct (reachable_Inv _ _ _ _ Hrt Hreach) as (objs & Hdec & HI & Hg & _).
  pose proof (Inv_flushed f objs HI) as Hfl.
  pose proof HI as [H1 H2 [H3 H3'] H4 H5 H6 H7].
  pose proof (Forall2_length _ _ _ Hdec) as Hlen.
  split; [|repeat split].
  - split; [unfold flushed; lia|]. split; [lia|]. split.
    + rewrite H5, Hfl, Nat2N.id. by apply Forall2_drop.
    + intros n a Hn Ha. subst gs.
      assert (Hgrp : (n / objectGroupSize f + 1) * objectGroupSize f <= flushed f)
        by (by apply aligned_group_below).
      destruct (H7 _ Hgrp) as (body & Hb & Hj).
      destruct (Forall2_lookup_l _ _ _ _ _ Hdec Ha) as (o & Ho & Hnew).
      exists body, (groupOf objs (objectGroupSize f) (n / objectGroupSize f)), o.
      repeat (split; [done|]). split; [|done].
      pose proof (N.mod_upper_bound n (objectGroupSize f) ltac:(lia)) as Hub.
      pose proof (N.div_mod n (objectGroupSize f) ltac:(lia)) as Hd.
      rewrite groupOf_lookup by lia.
      replace (N.to_nat (n / objectGroupSize f * objectGroupSize f)
               + N.to_nat (n mod objectGroupSize f))%nat
        with (N.to_nat n); [done|].
      revert Hd Hub. generalize (n / objectGroupSize f) (n mod objectGroupSize f).
      intros q m Hd Hub. rewrite Hd at 1. lia.
  - intros number a f' Happ [Hu _].
    apply AppendAncient_frozen in Happ. rewrite Happ. by apply add64_small.
  - intros number a f' e Happ. apply AppendAncient_frozen in Happ. by subst.
  - intros env f' r. apply Sync_frozen.
  - intros items env f'. apply TruncateAncients_frozen.
  - intros items env f' e. apply TruncateAncients_error_frozen.
  - intros kind number env f' r Hread.
    by destruct (Ancient_frame _ _ _ _ _ _ Hread) as (? & _).
Qed.

(** Reads of reachable states. With a working download, a read of a number
    below the frozen count returns the bytes handed to the append of that
    number, provided they round-trip through the field codec, when no
    truncation took place, or when the read cache has no entry for the
    number or the entry is the record of that append. *)
Theorem Ancient_returns_appended truncating gs f alog kind n a env :
  JSONRoundTrip →
  reachable truncating gs f alog →
  alog !! N.to_nat n = Some a →
  RoundTrips kind a →
  downloadFails env = false →
  (truncating = false
   ∨ ∀ o, retrieved f !! n = Some o → NewAncientObjectS3 a = inl o) →
  ∃ f', Ancient kind n env f = Done (f', (Some (argFor kind a), None)).
Proof.
  intros Hrt Hreach Ha Hround Henv Hcache.
  destruct (reachable_Inv _ _ _ _ Hrt Hreach) as (objs & Hdec & HI & Hg & Hag).
  destruct (Forall2_lookup_l _ _ _ _ _ Hdec Ha) as (o & Ho & Hnew).
  destruct (Inv_Ancient_read f objs kind n env o HI Ho Henv) as (f' & Hread).
  - intros v Hv. destruct Hcache as [Ht|Hc].
    + specialize (Hag Ht n v Hv). congruence.
    + specialize (Hc v Hv). congruence.
  - exists f'. rewrite Hread, (Hround o Hnew). reflexivity.
Qed.


(** Every call keeps the group size. *)
Lemma doCall_groupSize c f f' r :
  doCall c f = Done (f', r) → objectGroupSize f' = objectGroupSize f.
Proof.
  destruct c as [number a|env|items env|kind number env]; simpl.
  - unfold AppendAncient. destruct (NewAncientObjectS3 a); by intros [= <- _].
  - intros Hs.
    destruct (Sync_cases env f f' r Hs)
      as [(Hnil & -> & ->)
         |(Hne & ups & [(e & Hups & -> & ->)
                       |[(Hups & _ & -> & ->)
                        |(Hups & Hsent & Hgs & Hset)]])]; try done.
    unfold setIndexMarker in Hset.
    destruct (putMarkerFails env); by injection Hset as -> _.
  - unfold TruncateAncients, objectKeyForN, setIndexMarker, bind.
    repeat (case_match; simpl); intros; simplify_eq; reflexivity.
  - unfold dropValue.
    destruct (Ancient kind number env f) as [[f1 [v e]]|] eqn:Hread;
      [|discriminate].
    cbn [bind]. intros [= <- _].
    by destruct (Ancient_frame _ _ _ _ _ _ Hread) as (_ & ? & _).
Qed.

(** A run that [runHistory] accepts is a path of [reachable]. *)
Lemma runHistory_reachable gs cs : ∀ f alog f' alog',
  reachable true gs f alog → objectGroupSize f = gs →
  runHistory cs f alog = Some (f', alog') →
  reachable true gs f' alog'.
Proof.
  induction cs as [|c cs IH]; intros f alog f' alog' Hreach Hgs; simpl.
  { by intros [= <- <-]. }
  destruct (doCall c f) as [[f1 [e|]]|] eqn:Hcall; try discriminate.
  destruct (historyStep c f alog) as [alog1|] eqn:Hhist; [|discriminate].
  assert (Hgs1 : objectGroupSize f1 = gs)
    by (rewrite <- Hgs; by eapply doCall_groupSize).
  apply IH; [|done].
  destruct c as [number a|env|items env|kind number env]; simpl in *.
  - destruct (_ && _) eqn:Hks; [|discriminate]. injection Hhist as <-.
    apply andb_true_iff in Hks as [Hu Hk].
    apply N.ltb_lt in Hu. apply N.leb_le in Hk.
    eapply reach_append; [exact Hreach| |exact Hcall].
    split; [done|]. by rewrite <- Hgs.
  - injection Hhist as <-. by eapply reach_sync.
  - destruct (items <=? frozen f) eqn:Hit; [|discriminate].
    injection Hhist as <-. apply N.leb_le in Hit.
    by eapply reach_truncate.
  - injection Hhist as <-. unfold dropValue in Hcall.
    destruct (Ancient kind number env f) as [[f2 [v e]]|] eqn:Hread;
      [|discriminate].
    cbn [bind] in Hcall. injection Hcall as <- _.
    by eapply reach_ancient.
Qed.

End Reachable.

(** ** The small codec *)

Lemma SmallCodec_unmarshal_marshal l : ∀ fuel,
  (length l < fuel)%nat →
  SmallCodec.unmarshalFuel fuel (SmallCodec.marshal l) = Some l.
Proof.
  induction l as [|[h hd bd r d] l IH]; intros fuel Hf.
  - destruct fuel; [lia|done].
  - destruct fuel as [|fuel]; [simpl in Hf; lia|].
    simpl in *. rewrite IH by lia. done.
Qed.

Lemma SmallCodec_marshal_length l :
  length (SmallCodec.marshal l) = (5 * length l)%nat.
Proof. induction l as [|o l IH]; simpl; [done|]. rewrite IH. lia. Qed.

Lemma SmallCodec_round_trip :
  @JSONRoundTrip SmallCodec.fields SmallCodec.groups.
Proof.
  intros l b [= <-]. simpl. 
  change (SmallCodec.unmarshalFuel (S (length (SmallCodec.marshal l)))
            (SmallCodec.marshal l) = Some l).
  apply SmallCodec_unmarshal_marshal. rewrite SmallCodec_marshal_length. lia.
Qed.

(** ** Concrete runs *)

Section Concrete_runs.
Import SmallCodec Samples.
#[local] Existing Instance fields.
#[local] Existing Instance groups.

Lemma Ancient_at_or_beyond_frozen_witness :
  frozen threeBuffered <= 7
  ∧ Ancient freezerHeaderTable 7 noFaults threeBuffered
    = Done (threeBuffered, (None, None)).
Proof.
  split; [vm_compute; discriminate|].
  apply (Ancient_at_or_beyond_frozen freezerHeaderTable 7 noFaults threeBuffered).
  vm_compute; discriminate.
Defined.

(** C5 as stated fails: on a fresh freezer, reading number 0 (which is not
    below the frozen count 0) returns with a nil error, not with an
    error value. *)
Lemma Ancient_beyond_frozen_returns_nil_error :
  frozen (emptyFreezer 32) <= 0
  ∧ ¬ ∃ f' v e,
        Ancient freezerHashTable 0 noFaults (emptyFreezer 32)
        = Done (f', (v, Some e)).
Proof.
  split; [vm_compute; discriminate|].
  intros (f' & v & e & Hres). vm_compute in Hres. discriminate.
Qed.

Lemma TruncateAncients_then_absent_witness :
  1 <= frozen threeBuffered
  ∧ ∃ f', TruncateAncients 1 noFaults threeBuffered = Done (f', None)
      ∧ Ancients f' = (1, None)
      ∧ Ancient freezerBodiesTable 1 noFaults f' = Done (f', (None, None)).
Proof.
  split; [vm_compute; discriminate|].
  eexists. split; [vm_compute; reflexivity|].
  match goal with
  | |- Ancients ?f' = _ ∧ _ =>
      destruct (TruncateAncients_then_absent 1 noFaults threeBuffered f')
        as [Hn Hread]
  end.
  - vm_compute; discriminate.
  - vm_compute; reflexivity.
  - split; [exact Hn|].
    apply (Hread freezerBodiesTable 1 noFaults). vm_compute; discriminate.
Defined.

Lemma AppendAncient_number_unread_witness :
  NewAncientObjectS3 (args x01) = inl (rec x01)
  ∧ frozen (emptyFreezer 32) = 0
  ∧ AppendAncient 5 (args x01) (emptyFreezer 32)
    = Done ({| frozen := 1; objectGroupSize := 32; retrieved := ∅;
               cache := [rec x01]; bucket := ∅; requests := [] |}, None).
Proof.
  split; [reflexivity|]. split; [reflexivity|].
  apply (AppendAncient_number_unread 5 (args x01) (emptyFreezer 32) (rec x01)).
  reflexivity.
Defined.

(** C10. The constructor builds [emptyGroupFreezer] from a bucket whose
    marker says 1 and whose first group decodes to the empty array; reading
    number 0 from it fetches that group and stops in an index-out-of-range
    panic: no [errOutOfBounds] is returned. *)
Theorem Ancient_empty_remote_group_panics :
  newFreezerRemoteS3 32 noFaults emptyGroupBucket []
  = Done (emptyGroupFreezer, None)
  ∧ Ancient freezerHashTable 0 noFaults emptyGroupFreezer
    = Abort IndexOutOfRange.
Proof. split; vm_compute; reflexivity. Qed.

(** C8. Four records appended in sequence to a fresh freezer with groups of
    two, then a [Sync], all with nil errors; the constructor run on the
    bucket this leaves returns [errOutOfBounds]. *)
Theorem restart_on_group_boundary_fails :
  ∃ f, runCalls fourThenSync (emptyFreezer 2) = Some f
     ∧ cache f = [] ∧ frozen f = 4
     ∧ ∃ f', newFreezerRemoteS3 2 noFaults (bucket f) []
             = Done (f', Some errOutOfBounds).
Proof.
  eexists. split; [vm_compute; reflexivity|].
  split; [reflexivity|]. split; [reflexivity|].
  eexists. vm_compute. reflexivity.
Qed.

Lemma args_round_trip kind x :
  (∀ name, kind ≠ otherKind name) → RoundTrips kind (args x).
Proof.
  intros Hk o [= <-]. destruct kind; try reflexivity.
  by destruct (Hk name).
Qed.

(** C1. Groups of two: records 01 and 02 are appended and flushed, number
    0 is read (which loads the group into the read cache), the freezer is
    truncated to one record, record 09 is appended at number 1 and flushed.
    All calls return nil errors and the frozen count is 2. The read of the
    hash of number 1 then returns 02, the record of that number before the
    truncation, where the bytes passed to the last append of number 1
    were 09. *)
Theorem Ancient_stale_after_truncate :
  ∃ f, runCalls rewriteAfterRead (emptyFreezer 2) = Some f
     ∧ frozen f = 2
     ∧ bucket f !! awsKeyBlock 0 = Some (marshal [rec x01; rec x09])
     ∧ Ancient freezerHashTable 1 noFaults f = Done (f, (Some [x02], None))
     ∧ argFor freezerHashTable (args x09) = [x09]
     ∧ [x02] ≠ argFor freezerHashTable (args x09).
Proof.
  eexists. split; [vm_compute; reflexivity|].
  repeat split; try (vm_compute; reflexivity).
  discriminate.
Qed.

(** The same run without the read in between: number 1 reads as 09. *)
Example Ancient_returns_appended_run :
  ∃ f, reachable true 2 f [args x01; args x09]
     ∧ ∃ f', Ancient freezerHashTable 1 noFaults f
             = Done (f', (Some (argFor freezerHashTable (args x09)), None)).
Proof.
  pose (cs := [CallAppend 0 (args x01); CallAppend 1 (args x02);
               CallSync noFaults; CallTruncate 1 noFaults;
               CallAppend 1 (args x09); CallSync noFaults]).
  pose (f := (default (emptyFreezer 2, [])
                (runHistory cs (emptyFreezer 2) [])).1).
  assert (Hreach : reachable true 2 f [args x01; args x09]).
  { apply (runHistory_reachable 2 cs (emptyFreezer 2) []).
    - by constructor.
    - reflexivity.
    - vm_compute. reflexivity. }
  exists f. split; [exact Hreach|].
  apply (Ancient_returns_appended true 2 f [args x01; args x09]
           freezerHashTable 1 (args x09) noFaults SmallCodec_round_trip Hreach).
  - reflexivity.
  - by apply args_round_trip.
  - reflexivity.
  - right. intros o Ho. vm_compute in Ho. discriminate.
Qed.

Lemma Sync_twice_witness :
  ∃ f1, Sync noFaults threeBuffered = Done (f1, None)
      ∧ ∃ f2, Sync noFaults f1 = Done (f2, None)
            ∧ frozen f2 = frozen f1 ∧ cache f2 = cache f1
            ∧ bucket f2 = bucket f1.
Proof.
  eexists. split; [vm_compute; reflexivity|].
  match goal with
  | |- ∃ f2, Sync noFaults ?f1 = _ ∧ _ =>
      destruct (Sync_twice noFaults threeBuffered f1)
        as (f2 & Hs & Hfz & Hc & _ & _ & Hb & _)
  end.
  - vm_compute; reflexivity.
  - exists f2. repeat split; assumption.
Defined.

(** C3 as stated fails: with groups of two, three records appended and
    flushed, a second [Sync] right after the first sends two PutObject
    requests, one for the group of record 2 and one for the index marker. *)
Lemma Sync_again_writes :
  ∃ f1 f2, runCalls threeThenSync (emptyFreezer 2) = Some f1
         ∧ Sync noFaults f1 = Done (f2, None)
         ∧ requests f2
           = PutObject indexMarkerKey (list_byte_of_string "3")
             :: PutObject (awsKeyBlock 1) (marshal [rec x03])
             :: requests f1.
Proof.
  eexists. eexists. split; [vm_compute; reflexivity|].
  split; vm_compute; reflexivity.
Qed.

Lemma Sync_failure_leaves_marker_witness :
  ∃ f', Sync markerFault twoBuffered = Done (f', Some errRemote)
      ∧ frozen f' = frozen twoBuffered
      ∧ bucket f' !! indexMarkerKey = bucket twoBuffered !! indexMarkerKey.
Proof.
  eexists. split; [vm_compute; reflexivity|].
  match goal with
  | |- frozen ?f' = _ ∧ _ =>
      destruct (Sync_failure_leaves_marker markerFault twoBuffered f'
                  (Some errRemote)) as [_ Herr]
  end.
  - vm_compute; reflexivity.
  - destruct (Herr errRemote eq_refl) as (Hfz & Hm & _). by split.
Defined.

(** C4 as stated fails: with two records in the backlog, groups of two and
    a marker write that fails, [Sync] returns an error and the backlog is
    empty afterwards. *)
Lemma Sync_marker_failure_trims_backlog :
  ∃ f', Sync markerFault twoBuffered = Done (f', Some errRemote)
      ∧ cache twoBuffered = [rec x01; rec x02]
      ∧ cache f' = [].
Proof.
  eexists. split; [vm_compute; reflexivity|]. split; reflexivity.
Qed.

Lemma reachable_frozen_count_witness :
  ∃ f, reachable true 2 f [args x01; args x02; args x03]
     ∧ frozen f = flushed f + N.of_nat (length (cache f))
     ∧ frozen f = N.of_nat (length [args x01; args x02; args x03]).
Proof.
  pose (f := (default (emptyFreezer 2, [])
                (runHistory threeThenSync (emptyFreezer 2) [])).1).
  assert (Hreach : reachable true 2 f [args x01; args x02; args x03]).
  { apply (runHistory_reachable 2 threeThenSync (emptyFreezer 2) []).
    - constructor. reflexivity.
    - reflexivity.
    - vm_compute. reflexivity. }
  exists f. split; [exact Hreach|].
  destruct (reachable_frozen_count true 2 f [args x01; args x02; args x03]
              SmallCodec_round_trip Hreach) as [(H1 & H2 & _) _].
  split; assumption.
Defined.

(** C7 as stated fails: with groups of two and four records flushed, a
    truncation to one record whose marker write fails returns an error with
    the frozen count still 4 and the backlog replaced by record 0; the
    backlog is then not the record of number 3. *)
Lemma TruncateAncients_failure_breaks_backlog :
  ∃ f f', runCalls fourThenSync (emptyFreezer 2) = Some f
        ∧ TruncateAncients 1 markerFault f = Done (f', Some errRemote)
        ∧ frozen f' = 4 ∧ flushed f' = 3 ∧ cache f' = [rec x01]
        ∧ ¬ decodes (drop (N.to_nat (flushed f')) fourArgs) (cache f').
Proof.
  eexists. eexists. split; [vm_compute; reflexivity|].
  split; [vm_compute; reflexivity|].
  repeat split; try (vm_compute; reflexivity).
  intros Hdec. vm_compute in Hdec.
  apply Forall2_cons_1 in Hdec as [Hhead _]. discriminate.
Qed.

(** Off a group boundary the restart works: three records with groups of
    two, flushed; the constructor returns a nil error and the three records
    read back. *)
Example restart_off_group_boundary :
  ∃ f f', runCalls threeThenSync (emptyFreezer 2) = Some f
        ∧ newFreezerRemoteS3 2 noFaults (bucket f) [] = Done (f', None)
        ∧ frozen f' = 3 ∧ cache f' = [rec x03]
        ∧ ∀ kind x, (∀ name, kind ≠ otherKind name) →
            (x = x01 ∨ x = x02 ∨ x = x03) →
            ∃ f'', Ancient kind (N.of_nat (Byte.to_nat x) - 1) noFaults f'
                   = Done (f'', (Some (argFor kind (args x)), None)).
Proof.
  eexists. eexists. split; [vm_compute; reflexivity|].
  split; [vm_compute; reflexivity|].
  split; [reflexivity|]. split; [reflexivity|].
  intros kind x Hk [Hx|[Hx|Hx]]; subst x;
    destruct kind; try (by destruct (Hk name));
    eexists; vm_compute; reflexivity.
Qed.

End Concrete_runs.

(** * Further properties *)

(** ** Keys and the index marker *)

Section Decimal.

Lemma parseDigits_digitsW w n : ∀ acc,
  parseDigits (digitsW w n) acc = Some (acc * 10 ^ N.of_nat w + n mod 10 ^ N.of_nat w).
Proof.
  induction w as [|w IH]; intros acc.
  - simpl. rewrite N.mod_1_r. f_equal. lia.
  - cbn [digitsW parseDigits].
    rewrite digitValue_digit by (apply N.mod_upper_bound; discriminate).
    rewrite IH, mod_pow10_succ, pow10_succ. f_equal. lia.
Qed.

Lemma widthFrom_ge fuel : ∀ w n, (w <= widthFrom fuel w n)%nat.
Proof.
  induction fuel as [|fuel IH]; intros w n; simpl; [lia|].
  destruct (n <? 10 ^ N.of_nat w); [lia|].
  specialize (IH (S w) n). lia.
Qed.

Lemma ParseUint_FormatUint n : n < u64 → ParseUint (FormatUint n) = (n, None).
Proof.
  intros Hn. unfold FormatUint, sprintf0d.
  pose proof (widthFrom_ge (20 - 1) 1 n) as Hw.
  assert (Hfit : n < 10 ^ N.of_nat (widthFrom (20 - 1) 1 n)).
  { apply widthFrom_fits. change (1 + (20 - 1))%nat with 20%nat.
    pose proof u64_lt_pow10. lia. }
  destruct (widthFrom (20 - 1) 1 n) as [|w] eqn:Hwd; [lia|].
  unfold ParseUint. cbn [digitsW].
  change (String ?c (digitsW w n)) with (digitsW (S w) n).
  rewrite parseDigits_digitsW, N.mul_0_l, N.add_0_l, N.mod_small by done.
  apply N.ltb_lt in Hn. by rewrite Hn.
Qed.

End Decimal.

Section Object_keys.
Context `{GC : GroupCodec}.

(** X1. Two numbers get the same object key exactly when they fall in the
    same group, and no object key is the key of the index marker. *)
Theorem objectKeyForN_same_group f n m :
  objectGroupSize f ≠ 0 → n < u64 → m < u64 →
  (objectKeyForN f n = objectKeyForN f m
   ↔ n / objectGroupSize f = m / objectGroupSize f)
  ∧ objectKeyForN f n ≠ Done indexMarkerKey.
Proof.
  intros Hgs Hn Hm. unfold objectKeyForN.
  apply N.eqb_neq in Hgs as Hgs'. rewrite Hgs'.
  split; [split|].
  - intros Heq.
    apply (f_equal (λ o, match o with Done k => k | Abort _ => EmptyString end))
      in Heq.
    cbv beta iota in Heq. apply awsKeyBlock_inj in Heq; [done| |].
    + eapply N.le_lt_trans; [apply N.Div0.div_le_upper_bound|exact Hn].
      rewrite <- (N.mul_1_l n) at 1. apply N.mul_le_mono_r. lia.
    + eapply N.le_lt_trans; [apply N.Div0.div_le_upper_bound|exact Hm].
      rewrite <- (N.mul_1_l m) at 1. apply N.mul_le_mono_r. lia.
  - by intros ->.
  - intros Heq.
    apply (f_equal (λ o, match o with Done k => k | Abort _ => EmptyString end))
      in Heq.
    cbv beta iota in Heq. by apply awsKeyBlock_not_marker in Heq.
Qed.

(** X2. Below 10^9 the keys of the groups sort, byte by byte, as the group
    numbers do, and every one of them sorts before the key of the index
    marker. *)
Theorem awsKeyBlock_order g g' :
  g < 10 ^ 9 → g' < 10 ^ 9 →
  (String.ltb (awsKeyBlock g) (awsKeyBlock g') = true ↔ g < g')
  ∧ String.ltb (awsKeyBlock g) indexMarkerKey = true.
Proof.
  intros Hg Hg'. split; [|reflexivity].
  unfold String.ltb. rewrite awsKeyBlock_compare by done.
  destruct (N.compare_spec g g'); split; intros; try done; lia.
Qed.

(** X3. The index marker written by [setIndexMarker] reads back, on the
    path of [Ancients] that reads the marker, as the number written. *)
Theorem index_marker_round_trip number env env' f :
  number < u64 →
  putMarkerFails env = false → downloadFails env' = false →
  (setIndexMarker number env f).2 = None
  ∧ AncientsFromMarker env' (bucket (setIndexMarker number env f).1)
    = (number, None).
Proof.
  intros Hn Hput Hdl. unfold setIndexMarker, AncientsFromMarker.
  rewrite Hput, Hdl. simpl. split; [done|].
  rewrite lookup_insert_eq, string_of_list_byte_of_string.
  by apply ParseUint_FormatUint.
Qed.



End Object_keys.

Section Appends.
Context `{GC : GroupCodec}.

Lemma NewAncientObjectS3_cases a :
  (decodeFails a ∧ NewAncientObjectS3 a = inr errRLP)
  ∨ (¬ decodeFails a ∧ ∃ o, NewAncientObjectS3 a = inl o
                            ∧ oHash o = BytesToHash (aHash a)).
Proof.
  unfold NewAncientObjectS3, decodeFails.
  destruct (rlpDecodeHeader (aHeader a)); [|left; auto].
  destruct (rlpDecodeBody (aBody a)); [|left; auto].
  destruct (rlpDecodeReceipts (aReceipts a)); [|left; auto].
  destruct (rlpDecodeDifficulty (aTd a)); [|left; auto 6].
  right. split; [|by eexists].
  intros [?|[?|[?|?]]]; discriminate.
Qed.

(** X5. [AppendAncient] returns the decoding error, and leaves the freezer
    as it was, exactly when the header, the body, the receipts or the total
    difficulty does not decode; the hash never makes it fail. In every other
    case it returns nil with the record at the end of the backlog and the
    count raised by one. *)
Theorem AppendAncient_error_iff number a f :
  (decodeFails a ↔ AppendAncient number a f = Done (f, Some errRLP))
  ∧ (¬ decodeFails a ↔
     ∃ o, oHash o = BytesToHash (aHash a)
        ∧ AppendAncient number a f
          = Done (withFrozen (withCache f (cache f ++ [o]))
                    (add64 (frozen f) 1), None)).
Proof.
  unfold AppendAncient.
  destruct (NewAncientObjectS3_cases a) as [[Hf ->]|[Hok (o & -> & Ho)]].
  - split; split; try done.
    intros (o & _ & [=]).
  - split; split; try done.
    intros _. by exists o.
Qed.

(** X6. A run of appends whose arguments decode, whatever numbers they are
    given, returns nil errors throughout, raises the count by their number
    (modulo 2^64), puts their records at the end of the backlog in order, and
    touches neither the bucket nor the read cache. *)
Theorem appends_run args : ∀ numbers objs f,
  frozen f < u64 →
  length numbers = length args → decodes args objs →
  ∃ f', runCalls (zip_with CallAppend numbers args) f = Some f'
      ∧ frozen f' = (frozen f + N.of_nat (length args)) mod u64
      ∧ cache f' = cache f ++ objs
      ∧ bucket f' = bucket f ∧ requests f' = requests f
      ∧ retrieved f' = retrieved f
      ∧ objectGroupSize f' = objectGroupSize f.
Proof.
  induction args as [|a args IH]; intros numbers objs f Hu Hlen Hdec.
  - apply Forall2_nil_inv_l in Hdec as ->.
    destruct numbers; [|done]. exists f. simpl.
    rewrite app_nil_r, N.add_0_r, N.mod_small by done. done.
  - apply Forall2_cons_inv_l in Hdec as (o & objs' & Ho & Hdec & ->).
    destruct numbers as [|number numbers]; [done|]. simpl in Hlen.
    cbn [zip_with runCalls doCall]. unfold AppendAncient. rewrite Ho.
    destruct (IH numbers objs'
                (withFrozen (withCache f (cache f ++ [o])) (add64 (frozen f) 1)))
      as (f' & Hrun & Hfz & Hc & Hb & Hr & Hret & Hgs).
    + simpl. apply N.mod_upper_bound. discriminate.
    + lia.
    + done.
    + exists f'. split; [done|]. simpl in *.
      split.
      { rewrite Hfz. unfold add64. rewrite N.Div0.add_mod_idemp_l.
        f_equal. lia. }
      split; [by rewrite Hc, <- app_assoc|]. done.
Qed.

End Appends.

Section Sync_batches.
Context `{GC : GroupCodec}.

(** The pieces the loop of [Sync] cuts a backlog into. *)
Lemma sealUploads_chunks f s L :
  objectGroupSize f ≠ 0 →
  ∀ n vs i ups,
    length vs = n → (i + length vs = L)%nat →
    sealUploads f s L i [] vs = Done (ups, None) →
    ∃ chunks,
      concat chunks = vs
      ∧ Forall2 (λ kb c, jsonMarshal c = Some kb.2) ups chunks
      ∧ Forall (λ c, c ≠ [] ∧ (length c <= N.to_nat (objectGroupSize f))%nat)
          chunks
      ∧ ∀ j c, chunks !! j = Some c → (S j < length chunks)%nat →
               length c = N.to_nat (objectGroupSize f).
Proof.
  intros Hgs n. induction n as [n IH] using lt_wf_ind.
  intros vs i ups Hn Hlen.
  set (G := N.to_nat (objectGroupSize f)).
  assert (HG : G ≠ 0%nat) by (unfold G; lia).
  destruct (decide (vs = [])) as [->|Hne].
  { simpl. intros [= <-]. exists []. repeat split; try constructor.
    intros j c Hj. by rewrite lookup_nil in Hj. }
  rewrite (sealUploads_group f s L vs i [] Hne Hlen) by (simpl; lia).
  cbv zeta. cbn [length app]. rewrite Nat.sub_0_r. fold G.
  destruct (jsonMarshal (take G vs)) as [b|] eqn:Hb; [|discriminate].
  unfold objectKeyForN. apply N.eqb_neq in Hgs as Hgs'. rewrite Hgs'.
  cbn [bind].
  destruct (sealUploads f s L (i + length (take G vs)) []
              (drop (length (take G vs)) vs)) as [[ups' err']|] eqn:Hrec;
    [|discriminate].
  cbn [bind]. intros [= <- ->].
  assert (Hvs : length vs ≠ 0%nat) by (by destruct vs).
  assert (Hlc : length (take G vs) = (G `min` length vs)%nat) by apply length_take.
  destruct (IH (length (drop (length (take G vs)) vs))
              ltac:(rewrite length_drop; lia)
              (drop (length (take G vs)) vs) (i + length (take G vs))%nat ups'
              eq_refl ltac:(rewrite length_drop; lia) Hrec)
    as (chunks & Hcat & Hm & Hsz & Hfull).
  exists (take G vs :: chunks). split; [|split; [|split]].
  - simpl. rewrite Hcat.
    rewrite Hlc. destruct (decide (G <= length vs)%nat).
    + rewrite Nat.min_l by lia. apply take_drop.
    + rewrite Nat.min_r by lia. rewrite drop_all, take_ge by lia.
      apply app_nil_r.
  - by constructor.
  - constructor; [|done]. split.
    + intros Hnil. apply (f_equal length) in Hnil. simpl in Hnil. lia.
    + lia.
  - intros [|j] c Hj Hlast; simpl in *.
    + injection Hj as <-.
      destruct chunks as [|c' chunks']; [simpl in Hlast; lia|].
      destruct (decide (G <= length vs)%nat); [lia|].
      exfalso. simpl in Hcat.
      apply Forall_cons in Hsz as [[Hc' _] _].
      rewrite Hlc, Nat.min_r, drop_all in Hcat by lia.
      by destruct c'.
    + apply (Hfull j c Hj). lia.
Qed.

(** X7. A [Sync] that returns nil on a backlog that is not empty has sent
    the whole backlog: the upload objects, in order, are the marshalled
    consecutive pieces of the backlog, each of at least one and at most
    [objectGroupSize] records and all but the last of exactly that many,
    under object keys of groups; the index marker is the one request sent
    after them. *)
Theorem Sync_uploads_backlog env f f' :
  Sync env f = Done (f', None) → cache f ≠ [] →
  ∃ ups chunks,
    requests f' = PutObject indexMarkerKey (markerBody f)
                  :: putRequests ups (requests f)
    ∧ bucket f' = <[indexMarkerKey := markerBody f]> (putAll ups (bucket f))
    ∧ Forall (λ kb, isBlockKey kb.1) ups
    ∧ concat chunks = cache f
    ∧ Forall2 (λ kb c, jsonMarshal c = Some kb.2) ups chunks
    ∧ Forall (λ c, c ≠ [] ∧ (length c <= N.to_nat (objectGroupSize f))%nat)
        chunks
    ∧ ∀ j c, chunks !! j = Some c → (S j < length chunks)%nat →
             length c = N.to_nat (objectGroupSize f).
Proof.
  intros Hs Hne.
  destruct (Sync_cases env f f' None Hs)
    as [(Hnil & _)
       |(_ & ups & [(e & _ & _ & [=])
                   |[(_ & _ & _ & [=])
                    |(Hups & Hsent & Hgs & Hset)]])]; [done|].
  unfold setIndexMarker in Hset.
  destruct (putMarkerFails env); [discriminate|]. injection Hset as ->.
  destruct (sealUploads_chunks f _ _ Hgs _ (cache f) 0%nat ups eq_refl eq_refl Hups)
    as (chunks & Hcat & Hm & Hsz & Hfull).
  exists ups, chunks. simpl. repeat (split; [done|]).
  split; [by eapply sealUploads_block_keys|]. done.
Qed.

(** X8. After a [Sync] that returns nil on a backlog that is not empty,
    the count is unchanged, the backlog is its last [len mod objectGroupSize]
    records, and the index marker in the bucket reads back as the count. *)
Theorem Sync_success_state env f f' :
  Sync env f = Done (f', None) → cache f ≠ [] → frozen f < u64 →
  frozen f' = frozen f
  ∧ cache f' = drop (length (cache f)
                     - length (cache f) mod N.to_nat (objectGroupSize f))
                 (cache f)
  ∧ length (cache f')
    = (length (cache f) mod N.to_nat (objectGroupSize f))%nat
  ∧ retrieved f' = retrieved f
  ∧ AncientsFromMarker noFaults (bucket f') = (frozen f', None).
Proof.
  intros Hs Hne Hu.
  destruct (Sync_cases env f f' None Hs)
    as [(Hnil & _)
       |(_ & ups & [(e & _ & _ & [=])
                   |[(_ & _ & _ & [=])
                    |(Hups & Hsent & Hgs & Hset)]])]; [done|].
  pose proof (syncRemainder_length f Hgs) as Hrl.
  unfold setIndexMarker in Hset.
  destruct (putMarkerFails env); [discriminate|]. injection Hset as ->.
  simpl. split; [done|]. split.
  { unfold syncRemainder. by rewrite N2Nat.inj_mod, Nat2N.id. }
  split; [done|]. split; [done|].
  unfold AncientsFromMarker. simpl.
  rewrite lookup_insert_eq, string_of_list_byte_of_string.
  by apply ParseUint_FormatUint.
Qed.

Lemma sealUploads_zero_group f s L vs : ∀ i set,
  objectGroupSize f = 0 → vs ≠ [] → (i + length vs = L)%nat →
  sealUploads f s L i set vs = Abort DivideByZero
  ∨ sealUploads f s L i set vs = Done ([], Some errJSON).
Proof.
  induction vs as [|v rest IH]; intros i set Hgs Hne Hlen; [done|].
  cbn [sealUploads]. rewrite Hgs.
  assert (Hz : (N.of_nat (length (set ++ [v])) =? 0) = false).
  { apply N.eqb_neq. rewrite length_app. simpl. lia. }
  rewrite Hz. cbn [orb]. simpl in Hlen.
  destruct (Nat.eqb i (L - 1)) eqn:Hlast.
  - destruct (jsonMarshal (set ++ [v])); [|by right].
    left. unfold objectKeyForN. by rewrite Hgs.
  - apply Nat.eqb_neq in Hlast. apply IH; [done| |lia].
    intros ->. simpl in Hlen. lia.
Qed.

(** X9. With a group size of 0, which the constructor accepts, a [Sync] on
    a backlog that is not empty never uploads: it stops in a division by
    zero, unless the encoding of the backlog fails first. *)
Theorem Sync_zero_group_size env f :
  objectGroupSize f = 0 → cache f ≠ [] →
  Sync env f = Abort DivideByZero ∨ Sync env f = Done (f, Some errJSON).
Proof.
  intros Hgs Hne. unfold Sync.
  assert (Hlen : Nat.eqb (length (cache f)) 0 = false).
  { apply Nat.eqb_neq. by destruct (cache f). }
  rewrite Hlen.
  destruct (sealUploads_zero_group f
              (sub64 (frozen f) (N.of_nat (length (cache f))))
              (length (cache f)) (cache f) 0%nat [] Hgs Hne eq_refl) as [->| ->].
  - by left.
  - by right.
Qed.

End Sync_batches.

Section Truncation.
Context `{GC : GroupCodec}.


(** X10. Truncating twice to the same target is truncating once: after a
    [TruncateAncients] that returned nil, the same call again, whatever the
    remote store does, returns nil and leaves the freezer as it is. *)
Theorem TruncateAncients_twice items env env' f f1 :
  items < u64 →
  TruncateAncients items env f = Done (f1, None) →
  TruncateAncients items env' f1 = Done (f1, None).
Proof.
  intros Hu. unfold TruncateAncients at 1.
  destruct (sub64 (frozen f) (N.of_nat (length (cache f))) <=? items) eqn:Hcase.
  - apply N.leb_le in Hcase.
    set (s := sub64 (frozen f) (N.of_nat (length (cache f)))) in *.
    assert (Hidx : sub64 items s = items - s) by (apply sub64_small; lia).
    rewrite Hidx.
    destruct (N.of_nat (length (cache f)) <? items - s) eqn:Hlen; [discriminate|].
    apply N.ltb_ge in Hlen. intros [= <-].
    unfold TruncateAncients. simpl.
    rewrite length_take, Nat.min_l, N2Nat.id by lia.
    rewrite (sub64_small items (items - s)) by lia.
    replace (items - (items - s)) with s by lia.
    apply N.leb_le in Hcase as Hcase'. rewrite Hcase', Hidx.
    rewrite N.ltb_irrefl, take_take, Nat.min_id. reflexivity.
  - unfold objectKeyForN.
    destruct (objectGroupSize f =? 0) eqn:Hgs; [discriminate|]. cbn [bind].
    destruct (Download env f _) as [buf| |]; try discriminate.
    destruct (jsonUnmarshal buf) as [group|]; [|discriminate].
    set (r := items mod objectGroupSize f).
    destruct (N.of_nat (length group) <? r) eqn:Hr; [discriminate|].
    apply N.ltb_ge in Hr. simpl objectGroupSize. rewrite Hgs. cbn [bind].
    destruct (deleteFails env); [discriminate|].
    unfold setIndexMarker. destruct (putMarkerFails env); [discriminate|].
    intros [= <-].
    pose proof (N.Div0.mod_le items (objectGroupSize f)) as Hmle. fold r in Hmle.
    unfold TruncateAncients. simpl.
    rewrite length_take, Nat.min_l, N2Nat.id by lia.
    rewrite (sub64_small items r) by lia.
    assert (Hle : (items - r <=? items) = true) by (apply N.leb_le; lia).
    rewrite Hle. rewrite (sub64_small items (items - r)) by lia.
    replace (items - (items - r)) with r by lia.
    rewrite N.ltb_irrefl, take_take, Nat.min_id. reflexivity.
Qed.

(** X11. A truncation to a target that lies in the backlog returns nil
    whatever the remote store does, keeps the first records of the backlog
    up to the target, and sends nothing: the bucket, the index marker in it
    and the read cache stay as they were. *)
Theorem TruncateAncients_within_backlog items env f :
  N.of_nat (length (cache f)) <= frozen f → frozen f < u64 →
  frozen f - N.of_nat (length (cache f)) <= items → items <= frozen f →
  ∃ f', TruncateAncients items env f = Done (f', None)
      ∧ frozen f' = items
      ∧ cache f'
        = take (N.to_nat (items - (frozen f - N.of_nat (length (cache f)))))
            (cache f)
      ∧ bucket f' = bucket f ∧ requests f' = requests f
      ∧ retrieved f' = retrieved f.
Proof.
  intros Hlen Hu Hlo Hhi. unfold TruncateAncients.
  rewrite (sub64_small (frozen f)) by lia.
  apply N.leb_le in Hlo as Hlo'. rewrite Hlo'.
  rewrite sub64_small by lia.
  assert (Hidx : (N.of_nat (length (cache f))
                  <? items - (frozen f - N.of_nat (length (cache f)))) = false)
    by (apply N.ltb_ge; lia).
  rewrite Hidx. eexists. split; [reflexivity|]. done.
Qed.


End Truncation.

Section Read_answers.
Context `{GC : GroupCodec}.

(** X13. [HasAncient] answers true exactly when [Ancient] returns bytes
    with a nil error, answers false with a nil error exactly for the numbers
    at or beyond the frozen count, and hands on every error of [Ancient]
    with the answer false. *)
Theorem HasAncient_answers kind number env f f' :
  (HasAncient kind number env f = Done (f', (true, None))
   ↔ ∃ b, Ancient kind number env f = Done (f', (Some b, None)))
  ∧ (HasAncient kind number env f = Done (f', (false, None))
     ↔ frozen f <= number ∧ f' = f)
  ∧ (∀ e, HasAncient kind number env f = Done (f', (false, Some e))
          ↔ ∃ v, Ancient kind number env f = Done (f', (v, Some e)))
  ∧ ∀ e, HasAncient kind number env f ≠ Done (f', (true, Some e)).
Proof.
  unfold HasAncient.
  destruct (Ancient kind number env f) as [[f1 [v [e|]]]|] eqn:Hread; cbn [bind].
  - split; [|split; [|split]].
    + split; [discriminate|]. by intros (b & [=]).
    + split; [discriminate|]. intros [Hle ->].
      rewrite (Ancient_beyond_frozen _ _ _ _ Hle) in Hread. discriminate.
    + intros e'. split.
      * intros [= -> ->]. by exists v.
      * by intros (v' & [= -> -> ->]).
    + discriminate.
  - destruct v as [b|].
    + split; [|split; [|split]].
      * split; [intros [= ->]; by exists b|]. by intros (b' & [= -> ->]).
      * split; [discriminate|]. intros [Hle ->].
        rewrite (Ancient_beyond_frozen _ _ _ _ Hle) in Hread. discriminate.
      * intros e. split; [discriminate|]. by intros (v' & [=]).
      * discriminate.
    + pose proof (Ancient_nil_nil_inv _ _ _ _ _ Hread) as Hle.
      rewrite (Ancient_beyond_frozen _ _ _ _ Hle) in Hread.
      injection Hread as <-.
      split; [|split; [|split]].
      * split; [discriminate|]. by intros (b & [=]).
      * split; [by intros [= ->]|]. by intros [_ ->].
      * intros e. split; [discriminate|]. by intros (v' & [=]).
      * discriminate.
  - split; [|split; [|split]]; try discriminate.
    + split; [discriminate|]. by intros (b & [=]).
    + split; [discriminate|]. intros [Hle ->].
      rewrite (Ancient_beyond_frozen _ _ _ _ Hle) in Hread. discriminate.
    + intros e. split; [discriminate|]. by intros (v' & [=]).
Qed.

(** X14. For a table name that is none of the five, [Ancient] never
    returns bytes: it gives its nil answer for a number at or beyond the
    frozen count, and for a number below it either an error of the remote
    path or the panic of [RLPBytesForKind]. *)
Theorem Ancient_unknown_kind name number env f :
  (frozen f <= number →
   Ancient (otherKind name) number env f = Done (f, (None, None)))
  ∧ (number < frozen f →
     Ancient (otherKind name) number env f = Abort UnknownKind
     ∨ Ancient (otherKind name) number env f = Abort IndexOutOfRange
     ∨ Ancient (otherKind name) number env f = Abort DivideByZero
     ∨ ∃ f' e, Ancient (otherKind name) number env f = Done (f', (None, Some e))).
Proof.
  split; [apply Ancient_beyond_frozen|].
  intros Hlt. unfold Ancient, encoded, objectKeyForN.
  apply N.leb_gt in Hlt. rewrite Hlt. cbn [RLPBytesForKind bind].
  repeat (case_match; cbn [bind]); eauto 8.
Qed.

(** X15. A read never writes: whatever [Ancient] returns, the count, the
    group size, the backlog, the bucket and the log of requests are as
    before; the read cache changes only on the remote path, when the number
    is below the count and the backlog, is not in the read cache, and its
    group was downloaded and decoded. *)
Theorem Ancient_does_not_write kind number env f f' r :
  Ancient kind number env f = Done (f', r) →
  frozen f' = frozen f ∧ objectGroupSize f' = objectGroupSize f
  ∧ cache f' = cache f ∧ bucket f' = bucket f ∧ requests f' = requests f
  ∧ (retrieved f' = retrieved f
     ∨ ∃ buf target,
         number < frozen f
         ∧ number < sub64 (frozen f) (N.of_nat (length (cache f)))
         ∧ retrieved f !! number = None
         ∧ bucket f !! awsKeyBlock (number / objectGroupSize f) = Some buf
         ∧ jsonUnmarshal buf = Some target
         ∧ retrieved f'
           = fillRetrieved (sub64 number (number mod objectGroupSize f))
               0 target ∅).
Proof.
  intros Hread.
  destruct (Ancient_frame _ _ _ _ _ _ Hread) as (? & ? & ? & ? & ?).
  repeat (split; [done|]).
  revert Hread. unfold Ancient, encoded, objectKeyForN.
  destruct (frozen f <=? number) eqn:Hc1; [intros [= <- _]; by left|].
  destruct (sub64 (frozen f) (N.of_nat (length (cache f))) <=? number) eqn:Hc2.
  { destruct (cache f !! _); [|discriminate].
    destruct (RLPBytesForKind kind a); [|discriminate].
    intros [= <- _]. by left. }
  destruct (retrieved f !! number) eqn:Hret.
  { destruct (RLPBytesForKind kind a); [|discriminate].
    intros [= <- _]. by left. }
  destruct (objectGroupSize f =? 0) eqn:Hc3; [discriminate|]. cbn [bind].
  destruct (Download env f _) as [buf| |] eqn:Hdl;
    [|intros [= <- _]; by left|intros [= <- _]; by left].
  destruct (jsonUnmarshal buf) as [target|] eqn:Hjs; [|intros [= <- _]; by left].
  intros Hres. right. exists buf, target.
  apply N.leb_gt in Hc1, Hc2. apply Download_fetched in Hdl.
  repeat (split; [done|]).
  revert Hres. case_match; [by intros [= <- _]|].
  destruct (target !! _); [|discriminate].
  destruct (RLPBytesForKind kind a); [|discriminate].
  by intros [= <- _].
Qed.

End Read_answers.

Section Bucket_keys.
Context `{GC : GroupCodec}.

Lemma putAll_lookup_is_Some ups k : ∀ b,
  is_Some (putAll ups b !! k) →
  is_Some (b !! k) ∨ Exists (λ kb, kb.1 = k) ups.
Proof.
  induction ups as [|[k' body] ups IH]; intros b Hs; [by left|].
  change (putAll ((k', body) :: ups) b) with (putAll ups (<[k' := body]> b)) in Hs.
  destruct (IH _ Hs) as [Hb|Hex].
  - destruct (decide (k' = k)) as [->|Hne].
    + right. by constructor.
    + left. by rewrite lookup_insert_ne in Hb.
  - right. by constructor 2.
Qed.

Lemma UploadWithIterator_lookup_is_Some env ups k : ∀ i b rs,
  is_Some ((UploadWithIterator env i ups b rs).1.1 !! k) →
  is_Some (b !! k) ∨ Exists (λ kb, kb.1 = k) ups.
Proof.
  induction ups as [|[k' body] ups IH]; intros i b rs Hs; [by left|].
  cbn [UploadWithIterator] in Hs. destruct (uploadFails env i).
  - specialize (IH (S i) b (PutObject k' body :: rs)).
    destruct (UploadWithIterator env (S i) ups b (PutObject k' body :: rs))
      as [[b' rs'] fl]. simpl in *.
    destruct (IH Hs) as [Hb|Hex]; [by left|right; by constructor 2].
  - destruct (IH _ _ _ Hs) as [Hb|Hex].
    + destruct (decide (k' = k)) as [->|Hne].
      * right. by constructor.
      * left. by rewrite lookup_insert_ne in Hb.
    + right. by constructor 2.
Qed.

Lemma TruncateAncients_bucket_shrinks items env f f' r g :
  TruncateAncients items env f = Done (f', r) →
  is_Some (bucket f' !! awsKeyBlock g) → is_Some (bucket f !! awsKeyBlock g).
Proof.
  unfold TruncateAncients, objectKeyForN, setIndexMarker, bind.
  repeat (case_match; simpl); intros; simplify_eq; simpl in *; try done.
  all: repeat match goal with
       | H : is_Some (<[indexMarkerKey := _]> _ !! awsKeyBlock _) |- _ =>
           rewrite lookup_insert_ne in H
             by (symmetry; apply awsKeyBlock_not_marker)
       | H : is_Some (deleteAfter _ _ !! _) |- _ =>
           destruct H as [? H];
           apply map_lookup_filter_Some_1_1 in H
       end; by eauto.
Qed.

(** The objects of groups in the bucket of a reachable state belong to
    groups below 10^9; without truncation they belong to groups that start
    below the frozen count. *)
Lemma reachable_bucket_keys truncating gs f alog :
  JSONRoundTrip →
  reachable truncating gs f alog →
  ∀ g, g < u64 → is_Some (bucket f !! awsKeyBlock g) →
       g < 10 ^ 9 ∧ (truncating = false → g * gs < frozen f).
Proof.
  intros Hrt Hreach.
  induction Hreach
    as [Hgs
       |f alog number a f' Hreach IH Hks Happ
       |f alog env f' r Hreach IH Hs
       |f alog items env f' Htr Hreach IH Hit Htrunc
       |f alog kind number env f' r Hreach IH Hread]; intros g Hg Hsome.
  - simpl in Hsome. rewrite lookup_empty in Hsome. by destruct Hsome.
  - unfold AppendAncient in Happ.
    destruct (NewAncientObjectS3 a); [|discriminate].
    injection Happ as <-. simpl in *.
    destruct (IH g Hg Hsome) as [H9 Hfz]. split; [done|].
    intros Ht. specialize (Hfz Ht). destruct Hks as [Hu _].
    rewrite add64_small by done. lia.
  - destruct (reachable_Inv _ _ _ _ Hrt Hreach) as (objs & _ & HI & Hgs & _).
    pose proof HI as [H1 H2 [H3 H3'] H4 H5 H6 H7].
    assert (Hups : ∀ ups, syncUploads f = Done (ups, None) →
                   Exists (λ kb : string * bytes, kb.1 = awsKeyBlock g) ups →
                   g < 10 ^ 9 ∧ (truncating = false → g * gs < frozen f)).
    { intros ups Hu Hex.
      destruct (Inv_syncUploads f objs ups HI Hu) as [Hkeys _].
      apply Exists_exists in Hex as (kb & Hin & Hk).
      rewrite Forall_forall in Hkeys.
      destruct (Hkeys kb Hin) as (g' & Hk' & Hlo & Hhi).
      rewrite Hk' in Hk. apply awsKeyBlock_inj in Hk; [|by eapply group_lt_u64|done].
      subst g' gs. split; [|done].
      apply (N.mul_lt_mono_pos_r (objectGroupSize f)); [done|]. lia. }
    destruct (Sync_cases env f f' r Hs)
      as [(Hnil & -> & ->)
         |(Hne & ups & [(e & Hu & -> & ->)
                       |[(Hu & _ & -> & ->)
                        |(Hu & Hsent & Hgs0 & Hset)]])].
    + by apply IH.
    + by apply IH.
    + simpl in Hsome.
      destruct (UploadWithIterator_lookup_is_Some _ _ _ _ _ _ Hsome) as [Hb|Hex];
        [by apply IH|by apply (Hups ups)].
    + assert (Hfz : frozen f' = frozen f ∧
                    bucket f' !! awsKeyBlock g = putAll ups (bucket f) !! awsKeyBlock g).
      { unfold setIndexMarker in Hset.
        destruct (putMarkerFails env); injection Hset as -> _; simpl; [done|].
        split; [done|]. apply lookup_insert_ne. symmetry.
        apply awsKeyBlock_not_marker. }
      destruct Hfz as [-> Hb]. rewrite Hb in Hsome.
      destruct (putAll_lookup_is_Some _ _ _ Hsome) as [Hb'|Hex];
        [by apply IH|by apply (Hups ups)].
  - split; [|congruence].
    apply (TruncateAncients_bucket_shrinks _ _ _ _ _ _ Htrunc) in Hsome.
    by destruct (IH g Hg Hsome).
  - destruct (Ancient_frame _ _ _ _ _ _ Hread) as (Hfz & _ & _ & Hb & _).
    rewrite Hb in Hsome. rewrite Hfz. by apply IH.
Qed.

End Bucket_keys.

Section Restart.
Context `{GC : GroupCodec}.

Lemma Sync_leaves_last_group env f f1 :
  Sync env f = Done (f1, None) → cache f1 ≠ [] →
  ∃ body,
    bucket f1 !! lastGroupKey f1 = Some body
    ∧ jsonMarshal (cache f1) = Some body
    ∧ bucket f1 !! indexMarkerKey = Some (markerBody f1).
Proof.
  intros Hs Hne.
  destruct (Sync_cases env f f1 None Hs)
    as [(Hnil & -> & _)
       |(Hne0 & ups & [(e & _ & _ & [=])
                      |[(_ & _ & _ & [=])
                       |(Hups & Hsent & Hgs & Hset)]])]; [done|].
  unfold setIndexMarker in Hset.
  destruct (putMarkerFails env) eqn:Hput; [discriminate|].
  injection Hset as Hf1.
  assert (Hc1 : cache f1 = syncRemainder f) by (by rewrite Hf1).
  assert (Hfz : frozen f1 = frozen f) by (by rewrite Hf1).
  assert (Hg1 : objectGroupSize f1 = objectGroupSize f) by (by rewrite Hf1).
  assert (Hb1 : bucket f1 = <[indexMarkerKey := markerBody f]>
                              (putAll ups (bucket f))) by (by rewrite Hf1).
  set (G := N.to_nat (objectGroupSize f)).
  assert (HG : G ≠ 0%nat) by (unfold G; lia).
  pose proof (syncRemainder_length f Hgs) as Hrl. fold G in Hrl.
  assert (Hr0 : (length (cache f) mod G ≠ 0)%nat).
  { rewrite <- Hrl, <- Hc1. by destruct (cache f1). }
  destruct (sealUploads_last f _ (length (cache f)) Hgs _ (cache f) 0 ups
              eq_refl Hne0 eq_refl Hups) as (ups0 & body & Hupseq & Hbody).
  fold G in Hbody. rewrite (mod_pred_succ _ _ HG Hr0) in Hbody.
  assert (Hrem : syncRemainder f
                 = drop (length (cache f) - length (cache f) mod G) (cache f)).
  { unfold syncRemainder. by rewrite N2Nat.inj_mod, Nat2N.id. }
  rewrite <- Hrem, <- Hc1 in Hbody.
  assert (Hkey : awsKeyBlock
                   (add64 (sub64 (frozen f) (N.of_nat (length (cache f))))
                      (N.of_nat (length (cache f) - 1)) / objectGroupSize f)
                 = lastGroupKey f1).
  { unfold lastGroupKey. rewrite Hfz, Hg1.
    replace (N.of_nat (length (cache f) - 1))
      with (N.of_nat (length (cache f)) - 1) by lia.
    rewrite add64_sub64_pred; [done|]. destruct (cache f); [done|simpl; lia]. }
  rewrite Hkey in Hupseq.
  exists body. split; [|split; [done|]].
  - rewrite Hb1, lookup_insert_ne by (symmetry; apply awsKeyBlock_not_marker).
    rewrite Hupseq, putAll_app. simpl. apply lookup_insert_eq.
  - rewrite Hb1. unfold markerBody. rewrite Hfz. apply lookup_insert_eq.
Qed.

Lemma Sync_sets_marker env f f1 :
  Sync env f = Done (f1, None) → cache f ≠ [] →
  frozen f1 = frozen f
  ∧ bucket f1 !! indexMarkerKey = Some (markerBody f1).
Proof.
  intros Hs Hne.
  destruct (Sync_cases env f f1 None Hs)
    as [(Hnil & _)
       |(_ & ups & [(e & _ & _ & [=])
                   |[(_ & _ & _ & [=])
                    |(Hups & Hsent & Hgs & Hset)]])]; [done|].
  unfold setIndexMarker in Hset.
  destruct (putMarkerFails env); [discriminate|]. injection Hset as ->.
  split; [done|]. apply lookup_insert_eq.
Qed.

Lemma marker_reads_back env' f :
  downloadFails env' = false → frozen f < u64 →
  bucket f !! indexMarkerKey = Some (markerBody f) →
  AncientsFromMarker env' (bucket f) = (frozen f, None).
Proof.
  intros Henv Hu Hm. unfold AncientsFromMarker. rewrite Henv.
  unfold bytes in *. rewrite Hm.
  unfold markerBody. rewrite string_of_list_byte_of_string.
  by apply ParseUint_FormatUint.
Qed.

Lemma off_boundary_group n gs :
  0 < gs → n mod gs ≠ 0 → n < u64 → (n + u64 - 1) mod u64 / gs = n / gs.
Proof.
  intros Hgs Hr Hu.
  assert (Hn : 1 <= n).
  { destruct (N.eq_dec n 0) as [->|]; [|lia]. by rewrite N.Div0.mod_0_l in Hr. }
  assert (Hp : (n + u64 - 1) mod u64 = n - 1).
  { replace (n + u64 - 1) with (n - 1 + 1 * u64) by lia.
    rewrite N.Div0.mod_add. apply N.mod_small. lia. }
  rewrite Hp.
  pose proof (N.div_mod n gs ltac:(lia)) as Hd.
  pose proof (N.mod_upper_bound n gs ltac:(lia)) as Hub.
  symmetry. apply (N.div_unique _ _ _ (n mod gs - 1)); [lia|].
  revert Hd Hub Hr. generalize (n / gs) (n mod gs). intros q m Hd Hub Hr. nia.
Qed.

(** X16. A restart after a [Sync] that returned nil and left a backlog that
    is not empty: the constructor, on the bucket the [Sync] left and with a
    working download, returns a nil error and a freezer with the same count
    and the same backlog, which answers a read of any number below the
    count with the bytes given to the append of that number. *)
Theorem restart_after_Sync truncating gs f alog env f1 env' rs :
  JSONRoundTrip →
  reachable truncating gs f alog →
  Sync env f = Done (f1, None) →
  cache f1 ≠ [] →
  downloadFails env' = false →
  let f2 := {| frozen := frozen f1; objectGroupSize := gs; retrieved := ∅;
               cache := cache f1; bucket := bucket f1; requests := rs |} in
  newFreezerRemoteS3 gs env' (bucket f1) rs = Done (f2, None)
  ∧ ∀ kind n a env'',
      alog !! N.to_nat n = Some a → RoundTrips kind a →
      downloadFails env'' = false →
      ∃ f3, Ancient kind n env'' f2 = Done (f3, (Some (argFor kind a), None)).
Proof.
  intros Hrt Hreach Hs Hne Henv f2.
  assert (Hreach1 : reachable truncating gs f1 alog) by (by eapply reach_sync).
  destruct (reachable_Inv _ _ _ _ Hrt Hreach1) as (objs & Hdec & HI & Hg & _).
  pose proof HI as [H1 H2 [H3 H3'] H4 H5 H6 H7].
  destruct (Sync_leaves_last_group env f f1 Hs Hne) as (body & Hlk & Hbody & Hmk).
  assert (Hr : frozen f1 mod gs ≠ 0).
  { pose proof (Inv_flushed f1 objs HI) as Hfl. unfold flushed in *.
    intros Hz. rewrite Hg in H6.
    assert (Hlen : N.of_nat (length (cache f1)) < gs).
    { destruct (Sync_cases env f f1 None Hs)
        as [(Hnil & -> & _)
           |(Hne0 & ups & [(e & _ & _ & [=])
                          |[(_ & _ & _ & [=])
                           |(Hups & Hsent & Hgs & Hset)]])].
      - by rewrite Hnil in Hne.
      - pose proof (syncRemainder_length f Hgs) as Hrl.
        unfold setIndexMarker in Hset.
        destruct (putMarkerFails env); [discriminate|]. injection Hset as ->.
        simpl in *. rewrite Hrl.
        pose proof (Nat.mod_upper_bound (length (cache f))
                      (N.to_nat (objectGroupSize f)) ltac:(lia)) as Hub.
        revert Hub.
        generalize (length (cache f) mod N.to_nat (objectGroupSize f))%nat.
        lia. }
    assert (Hc0 : N.of_nat (length (cache f1)) ≠ 0) by (by destruct (cache f1)).
    assert (Hsum : frozen f1
                   = (frozen f1 - N.of_nat (length (cache f1)))
                     + N.of_nat (length (cache f1))) by lia.
    rewrite Hsum, <- N.Div0.add_mod_idemp_l, H6, N.add_0_l in Hz.
    rewrite N.mod_small in Hz by done. done. }
  assert (Hnew : newFreezerRemoteS3 gs env' (bucket f1) rs = Done (f2, None)).
  { unfold newFreezerRemoteS3.
    rewrite (marker_reads_back env' f1 Henv H3 Hmk). cbn [fst].
    assert (Hpos : (0 <? frozen f1) = true).
    { apply N.ltb_lt. destruct (N.eq_dec (frozen f1) 0) as [Hz|]; [|lia].
      rewrite Hz, N.Div0.mod_0_l in Hr. done. }
    rewrite Hpos. unfold initCache, objectKeyForN. cbn [objectGroupSize].
    assert (Hgs0 : (gs =? 0) = false) by (apply N.eqb_neq; lia).
    rewrite Hgs0. cbn [bind]. unfold Download. cbn [bucket]. rewrite Henv.
    unfold lastGroupKey in Hlk. rewrite Hg in Hlk.
    rewrite off_boundary_group in Hlk by (done || lia).
    rewrite Hlk, (Hrt _ _ Hbody). reflexivity. }
  split; [exact Hnew|].
  intros kind n a env'' Ha Hround Henv''.
  assert (HI2 : Inv f2 objs) by (by apply (Inv_frame f1 f2 objs)).
  destruct (Forall2_lookup_l _ _ _ _ _ Hdec Ha) as (o & Ho & Hnewo).
  destruct (Inv_Ancient_read f2 objs kind n env'' o HI2 Ho Henv'') as (f3 & Hread).
  { intros v Hv. simpl in Hv. by rewrite lookup_empty in Hv. }
  exists f3. rewrite Hread, (Hround o Hnewo). reflexivity.
Qed.

(** X17. A restart after a [Sync] that returned nil on a backlog that was
    not empty and ended on a group boundary, in a run without truncation: the
    constructor, with a working download, returns the out-of-bounds error,
    whatever was appended. *)
Theorem restart_on_boundary gs f alog env f1 env' rs :
  JSONRoundTrip →
  reachable false gs f alog →
  Sync env f = Done (f1, None) →
  cache f ≠ [] →
  frozen f mod gs = 0 →
  downloadFails env' = false →
  newFreezerRemoteS3 gs env' (bucket f1) rs
  = Done ({| frozen := frozen f; objectGroupSize := gs; retrieved := ∅;
             cache := []; bucket := bucket f1; requests := rs |},
          Some errOutOfBounds).
Proof.
  intros Hrt Hreach Hs Hne Hz Henv.
  assert (Hreach1 : reachable false gs f1 alog) by (by eapply reach_sync).
  destruct (reachable_Inv _ _ _ _ Hrt Hreach) as (objs & Hdec & HI & Hg & _).
  pose proof HI as [H1 H2 [H3 H3'] H4 H5 H6 H7].
  destruct (Sync_sets_marker env f f1 Hs Hne) as (Hfz & Hmk).
  assert (Hmark' : AncientsFromMarker env' (bucket f1) = (frozen f, None)).
  { rewrite <- Hfz. apply marker_reads_back; [done| |done]. by rewrite Hfz. }
  assert (Hpos : 0 < frozen f).
  { rewrite H2. destruct (cache f) eqn:Hc; [done|]. simpl in H4. lia. }
  unfold newFreezerRemoteS3. rewrite Hmark'. cbn [fst].
  apply N.ltb_lt in Hpos as Hpos'. rewrite Hpos'.
  unfold initCache, objectKeyForN. cbn [objectGroupSize].
  assert (Hgs0 : (gs =? 0) = false) by (apply N.eqb_neq; lia).
  rewrite Hgs0. cbn [bind]. unfold Download. cbn [bucket]. rewrite Henv.
  destruct (bucket f1 !! awsKeyBlock (frozen f / gs)) as [body|] eqn:Hb;
    [|reflexivity].
  exfalso.
  assert (Hlt : frozen f / gs < u64).
  { apply N.le_lt_trans with (frozen f); [|done].
    apply N.Div0.div_le_upper_bound. rewrite Hg in H1. nia. }
  destruct (reachable_bucket_keys false gs f1 alog Hrt Hreach1 _ Hlt
              ltac:(by rewrite Hb)) as [_ Hbelow].
  specialize (Hbelow eq_refl). rewrite Hfz in Hbelow.
  pose proof (N.div_mod (frozen f) gs ltac:(lia)) as Hd.
  rewrite Hz in Hd. lia.
Qed.

End Restart.

Section Reachable_calls.
Context `{GC : GroupCodec}.

(** X18. [TruncateAncients 0] once a group has been flushed: [items - 1]
    wraps to the largest number, whose group is no object of the bucket, so
    the call returns an error and changes nothing. *)
Theorem TruncateAncients_zero truncating gs f alog env :
  JSONRoundTrip →
  reachable truncating gs f alog →
  10 ^ 9 * gs < u64 →
  0 < flushed f →
  TruncateAncients 0 env f
  = Done (f, Some (if downloadFails env then errRemote else errOutOfBounds)).
Proof.
  intros Hrt Hreach Hsmall Hfl.
  destruct (reachable_Inv _ _ _ _ Hrt Hreach) as (objs & Hdec & HI & Hg & _).
  pose proof HI as [H1 H2 [H3 H3'] H4 H5 H6 H7].
  unfold TruncateAncients. rewrite (Inv_remoteHeight f objs HI).
  assert (Hcase : (flushed f <=? 0) = false) by (apply N.leb_gt; lia).
  rewrite Hcase. unfold objectKeyForN.
  assert (Hgs0 : (objectGroupSize f =? 0) = false) by (apply N.eqb_neq; lia).
  rewrite Hgs0. cbn [bind]. unfold Download.
  destruct (downloadFails env); [reflexivity|].
  destruct (bucket f !! awsKeyBlock (sub64 0 1 / objectGroupSize f))
    as [body|] eqn:Hb; [|reflexivity].
  exfalso.
  assert (Hlt : sub64 0 1 / objectGroupSize f < u64).
  { apply N.le_lt_trans with (sub64 0 1).
    - apply N.Div0.div_le_upper_bound.
      assert (1 <= objectGroupSize f) by lia.
      generalize dependent (sub64 0 1). intros. nia.
    - unfold sub64. apply N.mod_upper_bound. discriminate. }
  destruct (reachable_bucket_keys truncating gs f alog Hrt Hreach _ Hlt
              ltac:(by rewrite Hb)) as [H9 _].
  rewrite Hg in H9.
  assert (Hmax : sub64 0 1 = u64 - 1) by reflexivity.
  rewrite Hmax in H9.
  pose proof (N.div_mod (u64 - 1) gs ltac:(lia)) as Hd.
  pose proof (N.mod_upper_bound (u64 - 1) gs ltac:(lia)) as Hub.
  revert Hd Hub H9. generalize ((u64 - 1) / gs) ((u64 - 1) mod gs).
  intros q m Hd Hub H9. nia.
Qed.

Lemma fillRetrieved_lookup s target : ∀ i (m : gmap N AncientObjectS3) k,
  s + N.of_nat (i + length target) <= u64 →
  fillRetrieved s i target m !! k
  = if decide (s + N.of_nat i <= k ∧ k < s + N.of_nat (i + length target))
    then target !! (N.to_nat (k - s) - i)%nat
    else m !! k.
Proof.
  induction target as [|v rest IH]; intros i m k Hu; simpl.
  { rewrite decide_False by lia. done. }
  simpl in Hu. rewrite IH by lia.
  destruct (decide (k = s + N.of_nat i)) as [->|Hne].
  - rewrite decide_False by lia. rewrite decide_True by lia.
    rewrite add64_small by lia. rewrite lookup_insert_eq.
    replace (N.to_nat (s + N.of_nat i - s) - i)%nat with 0%nat by lia. done.
  - rewrite add64_small by lia. rewrite lookup_insert_ne by done.
    destruct (decide (s + N.of_nat (S i) <= k
                      ∧ k < s + N.of_nat (S i + length rest))) as [Hin|Hout].
    + rewrite decide_True by lia.
      replace (N.to_nat (k - s) - i)%nat with (S (N.to_nat (k - s) - S i)) by lia.
      done.
    + rewrite decide_False by lia. done.
Qed.

(** X19. The read cache after a read that went to the remote store: it
    holds the records of the group of that read and nothing else, and a
    read of any number of that group is then answered from it, whatever the
    remote store does. *)
Theorem Ancient_caches_group truncating gs f alog kind number env f' r :
  JSONRoundTrip →
  reachable truncating gs f alog →
  number < flushed f →
  retrieved f !! number = None →
  downloadFails env = false →
  Ancient kind number env f = Done (f', r) →
  ∀ m,
    (is_Some (retrieved f' !! m) ↔ m / gs = number / gs)
    ∧ (m / gs = number / gs →
       ∃ a o, alog !! N.to_nat m = Some a ∧ NewAncientObjectS3 a = inl o
            ∧ ∀ kind' env',
                Ancient kind' m env' f' = encoded f' (RLPBytesForKind kind' o)).
Proof.
  intros Hrt Hreach Hn Hret Henv Hread m.
  destruct (reachable_Inv _ _ _ _ Hrt Hreach) as (objs & Hdec & HI & Hg & _).
  pose proof (Inv_flushed f objs HI) as Hfl.
  pose proof (Inv_remoteHeight f objs HI) as Hrh.
  pose proof HI as [H1 H2 [H3 H3'] H4 H5 H6 H7].
  assert (Hgrp : (number / objectGroupSize f + 1) * objectGroupSize f
                 <= flushed f) by (by apply aligned_group_below).
  destruct (H7 _ Hgrp) as (buf & Hb & Hj).
  assert (Hgl : (number / objectGroupSize f + 1) * objectGroupSize f
                <= N.of_nat (length objs)).
  { etransitivity; [exact Hgrp|]. rewrite Hfl. clear. lia. }
  pose proof (N.mod_upper_bound number (objectGroupSize f) ltac:(lia)) as Hub.
  pose proof (N.div_mod number (objectGroupSize f) ltac:(lia)) as Hd.
  assert (Hs : sub64 number (number mod objectGroupSize f)
               = number / objectGroupSize f * objectGroupSize f).
  { assert (Hnu : number < u64) by (clear -Hn H3; unfold flushed in Hn; lia).
    rewrite sub64_small; [|apply N.Div0.mod_le|exact Hnu].
    clear -Hd. revert Hd.
    generalize (number / objectGroupSize f) (number mod objectGroupSize f).
    intros q x Hd. lia. }
  set (target := groupOf objs (objectGroupSize f) (number / objectGroupSize f)).
  assert (Hlen : length target = N.to_nat (objectGroupSize f))
    by (by apply groupOf_length).
  assert (Hf' : f' = withRetrieved f
                       (fillRetrieved
                          (number / objectGroupSize f * objectGroupSize f)
                          0 target ∅)).
  { revert Hread. unfold Ancient.
    assert (Hfz : (frozen f <=? number) = false).
    { apply N.leb_gt. unfold flushed in Hn. lia. }
    rewrite Hfz, Hrh.
    assert (Hcase : (flushed f <=? number) = false) by (by apply N.leb_gt).
    rewrite Hcase, Hret. unfold objectKeyForN.
    assert (Hgs0 : (objectGroupSize f =? 0) = false) by (apply N.eqb_neq; lia).
    rewrite Hgs0. cbn [bind]. unfold Download. rewrite Henv, Hb, Hj, Hs.
    fold target. case_match; [by intros [= <- _]|].
    destruct (target !! _); [|discriminate]. unfold encoded.
    destruct (RLPBytesForKind kind a); [|discriminate].
    by intros [= <- _]. }
  assert (Hlk : ∀ k,
    retrieved f' !! k
    = if decide (number / objectGroupSize f * objectGroupSize f <= k
                 ∧ k < (number / objectGroupSize f + 1) * objectGroupSize f)
      then objs !! N.to_nat k else None).
  { intros k. rewrite Hf'. cbn [retrieved withRetrieved].
    rewrite fillRetrieved_lookup by (rewrite Hlen; simpl; lia).
    rewrite Hlen. simpl.
    destruct (decide (_ ∧ _)) as [[Hlo Hhi]|Hout].
    - rewrite decide_True by lia. rewrite Nat.sub_0_r.
      unfold target. rewrite groupOf_lookup by lia.
      f_equal. lia.
    - rewrite decide_False by lia. apply lookup_empty. }
  assert (Hin : m / gs = number / gs ↔
                number / objectGroupSize f * objectGroupSize f <= m
                ∧ m < (number / objectGroupSize f + 1) * objectGroupSize f).
  { rewrite Hg. split.
    - intros Heq. rewrite <- Heq.
      pose proof (N.div_mod m gs ltac:(lia)) as Hdm.
      pose proof (N.mod_upper_bound m gs ltac:(lia)) as Hubm.
      revert Hdm Hubm. generalize (m / gs) (m mod gs). intros q x. nia.
    - intros [Hlo Hhi]. symmetry.
      apply (N.div_unique _ _ _ (m - number / gs * gs)); lia. }
  split.
  - rewrite Hlk, Hin. destruct (decide (_ ∧ _)) as [Hyes|Hno].
    + split; [done|]. intros _. apply lookup_lt_is_Some. lia.
    + split; [by intros []|done].
  - intros Hsame. apply Hin in Hsame as [Hlo Hhi].
    assert (Hml : (N.to_nat m < length objs)%nat) by lia.
    destruct (lookup_lt_is_Some_2 objs _ Hml) as [o Ho].
    destruct (Forall2_lookup_r _ _ _ _ _ Hdec Ho) as (a & Ha & Hnew).
    exists a, o. split; [done|]. split; [done|].
    intros kind' env'. unfold Ancient.
    assert (Hfzf : frozen f' = frozen f) by (by rewrite Hf').
    assert (Hcf : cache f' = cache f) by (by rewrite Hf').
    rewrite Hfzf, Hcf, Hrh.
    assert (Hfz : (frozen f <=? m) = false).
    { apply N.leb_gt. unfold flushed in Hgrp. lia. }
    assert (Hcase : (flushed f <=? m) = false) by (apply N.leb_gt; lia).
    rewrite Hfz, Hcase, Hlk, decide_True by done. rewrite Ho. reflexivity.
Qed.

End Reachable_calls.

Section Further_runs.
Import SmallCodec Samples.
#[local] Existing Instance fields.
#[local] Existing Instance groups.

Lemma fourFlushed_reachable : reachable true 2 fourFlushed fourArgs.
Proof.
  apply (runHistory_reachable 2 fourThenSync (emptyFreezer 2) []).
  - by constructor.
  - reflexivity.
  - vm_compute. reflexivity.
Defined.

Lemma threeAppended_reachable truncating :
  reachable truncating 2 threeAppended threeArgs.
Proof.
  apply (reach_append truncating 2
           {| frozen := 2; objectGroupSize := 2; retrieved := ∅;
              cache := [rec x01; rec x02]; bucket := ∅; requests := [] |}
           [args x01; args x02] 2 (args x03)).
  - apply (reach_append truncating 2
             {| frozen := 1; objectGroupSize := 2; retrieved := ∅;
                cache := [rec x01]; bucket := ∅; requests := [] |}
             [args x01] 1 (args x02)).
    + apply (reach_append truncating 2 (emptyFreezer 2) [] 0 (args x01)).
      * by constructor.
      * split; vm_compute; (reflexivity || discriminate).
      * reflexivity.
    + split; vm_compute; (reflexivity || discriminate).
    + reflexivity.
  - split; vm_compute; (reflexivity || discriminate).
  - reflexivity.
Defined.

Lemma twoBuffered_reachable truncating :
  reachable truncating 2 twoBuffered [args x01; args x02].
Proof.
  apply (reach_append truncating 2
           {| frozen := 1; objectGroupSize := 2; retrieved := ∅;
              cache := [rec x01]; bucket := ∅; requests := [] |}
           [args x01] 1 (args x02)).
  - apply (reach_append truncating 2 (emptyFreezer 2) [] 0 (args x01)).
    + by constructor.
    + split; vm_compute; (reflexivity || discriminate).
    + reflexivity.
  - split; vm_compute; (reflexivity || discriminate).
  - reflexivity.
Defined.

Lemma objectKeyForN_same_group_witness :
  objectGroupSize threeBuffered ≠ 0
  ∧ (objectKeyForN threeBuffered 5 = objectKeyForN threeBuffered 6
     ↔ 5 / objectGroupSize threeBuffered = 6 / objectGroupSize threeBuffered)
  ∧ objectKeyForN threeBuffered 5 ≠ Done indexMarkerKey.
Proof.
  split; [vm_compute; discriminate|].
  apply (objectKeyForN_same_group threeBuffered 5 6);
    vm_compute; (discriminate || reflexivity).
Defined.

Lemma awsKeyBlock_order_witness :
  (String.ltb (awsKeyBlock 9) (awsKeyBlock 10) = true ↔ 9 < 10)
  ∧ String.ltb (awsKeyBlock 9) indexMarkerKey = true.
Proof. apply (awsKeyBlock_order 9 10); vm_compute; reflexivity. Defined.

Lemma index_marker_round_trip_witness :
  (setIndexMarker 41 noFaults (emptyFreezer 32)).2 = None
  ∧ AncientsFromMarker noFaults
      (bucket (setIndexMarker 41 noFaults (emptyFreezer 32)).1)
    = (41, None).
Proof.
  apply (index_marker_round_trip 41 noFaults noFaults (emptyFreezer 32));
    vm_compute; reflexivity.
Defined.


Lemma appends_run_witness :
  ∃ f', runCalls (zip_with CallAppend [9; 9; 0] threeArgs) (emptyFreezer 2)
        = Some f'
      ∧ frozen f' = 3
      ∧ cache f' = [rec x01; rec x02; rec x03].
Proof.
  destruct (appends_run threeArgs [9; 9; 0] [rec x01; rec x02; rec x03]
              (emptyFreezer 2))
    as (f' & Hrun & Hfz & Hc & _).
  - vm_compute; reflexivity.
  - reflexivity.
  - repeat constructor.
  - exists f'. split; [exact Hrun|]. split; [exact Hfz|exact Hc].
Defined.

Lemma Sync_success_state_witness :
  ∃ f', Sync noFaults threeAppended = Done (f', None)
      ∧ frozen f' = 3 ∧ length (cache f') = 1%nat
      ∧ AncientsFromMarker noFaults (bucket f') = (frozen f', None).
Proof.
  eexists. split; [vm_compute; reflexivity|].
  match goal with
  | |- frozen ?f' = _ ∧ _ =>
      destruct (Sync_success_state noFaults threeAppended f')
        as (Hfz & _ & Hlen & _ & Hm)
  end.
  - vm_compute; reflexivity.
  - discriminate.
  - vm_compute; reflexivity.
  - split; [exact Hfz|]. split; [exact Hlen|exact Hm].
Defined.

Lemma Sync_zero_group_size_witness :
  Sync noFaults zeroGroupBuffered = Abort DivideByZero
  ∨ Sync noFaults zeroGroupBuffered = Done (zeroGroupBuffered, Some errJSON).
Proof.
  apply (Sync_zero_group_size noFaults zeroGroupBuffered).
  - reflexivity.
  - discriminate.
Defined.

Lemma Sync_uploads_backlog_witness :
  ∃ f' ups chunks,
    Sync noFaults threeAppended = Done (f', None)
    ∧ bucket f' = <[indexMarkerKey := markerBody threeAppended]>
                    (putAll ups (bucket threeAppended))
    ∧ concat chunks = cache threeAppended
    ∧ Forall2 (λ kb c, jsonMarshal c = Some kb.2) ups chunks.
Proof.
  eexists.
  match goal with
  | |- ∃ ups chunks, Sync _ _ = Done (?f', None) ∧ _ =>
      destruct (Sync_uploads_backlog noFaults threeAppended f')
        as (ups & chunks & _ & Hb & _ & Hcat & Hm & _)
  end.
  - vm_compute; reflexivity.
  - discriminate.
  - exists ups, chunks. split; [vm_compute; reflexivity|].
    split; [exact Hb|]. split; [exact Hcat|exact Hm].
Defined.

Lemma TruncateAncients_twice_witness :
  ∃ f1, TruncateAncients 1 noFaults fourFlushed = Done (f1, None)
      ∧ TruncateAncients 1 markerFault f1 = Done (f1, None).
Proof.
  eexists. split; [vm_compute; reflexivity|].
  match goal with
  | |- TruncateAncients 1 markerFault ?f1 = _ =>
      apply (TruncateAncients_twice 1 noFaults markerFault fourFlushed f1)
  end.
  - vm_compute; reflexivity.
  - vm_compute; reflexivity.
Defined.

Lemma TruncateAncients_within_backlog_witness :
  ∃ f', TruncateAncients 2 markerFault threeBuffered = Done (f', None)
      ∧ frozen f' = 2
      ∧ cache f' = [rec x01; rec x02]
      ∧ bucket f' = bucket threeBuffered.
Proof.
  destruct (TruncateAncients_within_backlog 2 markerFault threeBuffered)
    as (f' & Hres & Hfz & Hc & Hb & _).
  - vm_compute; discriminate.
  - vm_compute; reflexivity.
  - vm_compute; discriminate.
  - vm_compute; discriminate.
  - exists f'. split; [exact Hres|]. split; [exact Hfz|].
    split; [exact Hc|exact Hb].
Defined.


Lemma TruncateAncients_zero_witness :
  0 < flushed fourFlushed
  ∧ TruncateAncients 0 noFaults fourFlushed
    = Done (fourFlushed, Some errOutOfBounds).
Proof.
  split; [vm_compute; reflexivity|].
  apply (TruncateAncients_zero true 2 fourFlushed fourArgs noFaults
           SmallCodec_round_trip fourFlushed_reachable);
    vm_compute; reflexivity.
Defined.

Lemma restart_after_Sync_witness :
  ∃ f1, Sync noFaults threeAppended = Done (f1, None)
      ∧ newFreezerRemoteS3 2 noFaults (bucket f1) []
        = Done ({| frozen := frozen f1; objectGroupSize := 2; retrieved := ∅;
                   cache := cache f1; bucket := bucket f1; requests := [] |},
                None)
      ∧ ∃ f3, Ancient freezerBodiesTable 1 noFaults
                {| frozen := frozen f1; objectGroupSize := 2; retrieved := ∅;
                   cache := cache f1; bucket := bucket f1; requests := [] |}
              = Done (f3, (Some (argFor freezerBodiesTable (args x02)), None)).
Proof.
  eexists. split; [vm_compute; reflexivity|].
  match goal with
  | |- newFreezerRemoteS3 2 noFaults (bucket ?f1) [] = _ ∧ _ =>
      destruct (restart_after_Sync true 2 threeAppended threeArgs noFaults f1
                  noFaults [] SmallCodec_round_trip
                  (threeAppended_reachable true))
        as [Hnew Hread]
  end.
  - vm_compute; reflexivity.
  - vm_compute; discriminate.
  - reflexivity.
  - split; [exact Hnew|].
    apply (Hread freezerBodiesTable 1 (args x02) noFaults).
    + reflexivity.
    + apply args_round_trip. discriminate.
    + reflexivity.
Defined.

Lemma restart_on_boundary_witness :
  ∃ f1, Sync noFaults twoBuffered = Done (f1, None)
      ∧ newFreezerRemoteS3 2 noFaults (bucket f1) []
        = Done ({| frozen := frozen twoBuffered; objectGroupSize := 2;
                   retrieved := ∅; cache := []; bucket := bucket f1;
                   requests := [] |}, Some errOutOfBounds).
Proof.
  eexists. split; [vm_compute; reflexivity|].
  match goal with
  | |- newFreezerRemoteS3 2 noFaults (bucket ?f1) [] = _ =>
      apply (restart_on_boundary 2 twoBuffered [args x01; args x02] noFaults f1
               noFaults [] SmallCodec_round_trip (twoBuffered_reachable false))
  end.
  - vm_compute; reflexivity.
  - discriminate.
  - vm_compute; reflexivity.
  - reflexivity.
Defined.

Lemma Ancient_caches_group_witness :
  ∃ f' r, Ancient freezerHashTable 2 noFaults fourFlushed = Done (f', r)
        ∧ is_Some (retrieved f' !! 3)
        ∧ ¬ is_Some (retrieved f' !! 1)
        ∧ ∃ a o, fourArgs !! 3%nat = Some a ∧ NewAncientObjectS3 a = inl o
               ∧ Ancient freezerHeaderTable 3 markerFault f'
                 = encoded f' (RLPBytesForKind freezerHeaderTable o).
Proof.
  eexists. eexists. split; [vm_compute; reflexivity|].
  match goal with
  | |- is_Some (retrieved ?f' !! 3) ∧ _ =>
      pose proof (Ancient_caches_group true 2 fourFlushed fourArgs
                    freezerHashTable 2 noFaults f'
                    (Some [x03], None) SmallCodec_round_trip
                    fourFlushed_reachable) as Hgroup
  end.
  assert (H1 : 2 < flushed fourFlushed) by (vm_compute; reflexivity).
  assert (H2 : retrieved fourFlushed !! 2 = None) by (vm_compute; reflexivity).
  specialize (Hgroup H1 H2 eq_refl ltac:(vm_compute; reflexivity)).
  destruct (Hgroup 3) as [Hin3 Hserve].
  destruct (Hgroup 1) as [Hin1 _].
  split; [apply Hin3; vm_compute; reflexivity|].
  split; [intros Hs; apply Hin1 in Hs; vm_compute in Hs; discriminate|].
  destruct (Hserve ltac:(vm_compute; reflexivity)) as (a & o & Ha & Ho & Hany).
  exists a, o. split; [exact Ha|]. split; [exact Ho|].
  apply (Hany freezerHeaderTable markerFault).
Defined.

Lemma Ancient_does_not_write_witness :
  ∃ f' r, Ancient freezerHashTable 2 noFaults fourFlushed = Done (f', r)
        ∧ frozen f' = frozen fourFlushed
        ∧ cache f' = cache fourFlushed
        ∧ bucket f' = bucket fourFlushed
        ∧ requests f' = requests fourFlushed.
Proof.
  eexists. eexists. split; [vm_compute; reflexivity|].
  match goal with
  | |- frozen ?f' = _ ∧ _ =>
      destruct (Ancient_does_not_write freezerHashTable 2 noFaults fourFlushed
                  f' (Some [x03], None))
        as (Hfz & _ & Hc & Hb & Hr & _)
  end.
  - vm_compute; reflexivity.
  - split; [exact Hfz|]. split; [exact Hc|]. split; [exact Hb|exact Hr].
Defined.

End Further_runs.
